(** * doppelganger.listbalancer: list-balancing routines

    A shallow embedding of [src/doppelganger/listbalancer.py]:
    the hierarchical maximum-entropy balancer with its importance-weight
    backoff ([balance_multi_cvx]), the Newton-Raphson balancer
    ([balance_newton]) and the discretizer ([discretize_multi_weights]).

    Conventions of the embedding.
    - numpy's float64 entries are exact rationals ([Q]): rounding and
      overflow are outside the model.  The Newton-Raphson balancer, whose
      clamp and stopping test meet them, computes with floats that can
      also be infinite or NaN ([float]); its inputs are arrays of finite
      floats.
    - a 2-D array is the list of its rows, a 1-D array (or an n x 1 column)
      a list of entries.
    - the convex solver (cvxpy) is an oracle: a function the development is
      parametric in.  The real power function and the logarithm, which are
      not rational-valued, are parameters as well.
    - a Python exception is a value [Raised e] of the [result] type.
    - [logging.info] calls do not influence any returned value and are left
      out.
    - arrays have the shapes the docstrings give them; of the shape errors
      numpy can raise, the model keeps those the function's own arrays can
      run into, in the re-insertion of lines 172-175. *)

From Stdlib Require Import QArith Qround Qabs Qpower Lqa Lia Sorted.
From stdpp Require Import base list.

(** ** numpy in miniature *)

Abbreviation vector := (list Q).
Abbreviation matrix := (list (list Q)).

(** [a < b] on floats, as a boolean. *)
Definition Qlt_bool (a b : Q) : bool := negb (Qle_bool b a).

(** Truth value of a number: non-zero. *)
Definition truthy (v : Q) : bool := negb (Qeq_bool v 0).

(** [r.any()] for one row, and [np.any(M)] for a whole array. *)
Definition row_any (r : vector) : bool := existsb truthy r.
Definition np_any (M : matrix) : bool := existsb row_any M.

(** [np.any(x.value)]: [None] is falsy. *)
Definition np_any_value (v : option matrix) : bool :=
  match v with
  | Some M => np_any M
  | None => false
  end.

(** [np.sum(v)], [np.sum(M, axis=1)] and [np.sum(M)]. *)
Definition np_sum (v : vector) : Q := foldr Qplus 0%Q v.
Definition np_sum_rows (M : matrix) : vector := map np_sum M.
Definition np_sum_all (M : matrix) : Q := np_sum (np_sum_rows M).

(** Entry access with numpy's row/column order; the default is only met
    outside the array's shape, where Python raises [IndexError]. *)
Definition item (v : vector) (i : nat) : Q := default 0%Q (v !! i).
Definition item2 (M : matrix) (i j : nat) : Q := item (default [] (M !! i)) j.

(** [M[:, k]] *)
Definition column (M : matrix) (k : nat) : vector := map (fun r => item r k) M.

(** [M.shape[1]]; an array without rows is given no columns. *)
Definition ncols (M : matrix) : nat :=
  match M with
  | [] => 0
  | r :: _ => length r
  end.

(** [np.where(flags)[0]]: the positions that hold [True], ascending. *)
Fixpoint where_from (p : nat) (flags : list bool) : list nat :=
  match flags with
  | [] => []
  | b :: fl => if b then p :: where_from (S p) fl else where_from (S p) fl
  end.
Definition np_where (flags : list bool) : list nat := where_from 0 flags.

(** [np.delete(arr, obj, axis)] along the listed axis: the entries whose
    position is in [obj] are dropped. *)
Fixpoint delete_from {T} (p : nat) (obj : list nat) (arr : list T) : list T :=
  match arr with
  | [] => []
  | a :: arr' =>
      if bool_decide (p ∈ obj) then delete_from (S p) obj arr'
      else a :: delete_from (S p) obj arr'
  end.
Definition np_delete {T} (arr : list T) (obj : list nat) : list T :=
  delete_from 0 obj arr.

(** [np.insert(arr, obj, values, axis)] with a sequence of indices: every
    index of [obj] names a position of the array GIVEN to [np.insert], and
    [v] is placed before the entry at that position (position [len(arr)]
    appends). *)
Fixpoint insert_from {T} (p : nat) (obj : list nat) (v : T) (arr : list T)
  : list T :=
  replicate (length (filter (eq p) obj)) v ++
  match arr with
  | [] => []
  | a :: arr' => a :: insert_from (S p) obj v arr'
  end.

(** Python exceptions met in the module. *)
Inductive exn := SolverError | ValueError | IndexError | AxisError | TypeError.

Inductive result (T : Type) :=
| Returned (v : T)
| Raised (e : exn).
Arguments Returned {T} v.
Arguments Raised {T} e.

(** [np.insert(arr, obj, row, 0)] for a [rows x width] array and a
    [1 x len(row)] block of values: an index beyond the last position is an
    [IndexError]; the block is broadcast over the inserted rows, which needs
    [len(row) = width] or [len(row) = 1] and is a [ValueError] otherwise. *)
Definition np_insert_rows (width : nat) (arr : matrix) (obj : list nat)
    (row : vector) : result matrix :=
  if negb (forallb (fun i => i <=? length arr) obj) then Raised IndexError
  else if length row =? width then Returned (insert_from 0 obj row arr)
  else if length row =? 1 then
    Returned (insert_from 0 obj (replicate width (item row 0)) arr)
  else Raised ValueError.

(** [np.insert(arr, obj, col, 1)] for a [height x cols] array and a
    [len(col) x 1] block: the same along the second axis. *)
Definition np_insert_cols (height : nat) (arr : matrix) (obj : list nat)
    (col : vector) : result matrix :=
  if negb (forallb (fun i => i <=? ncols arr) obj) then Raised IndexError
  else if length col =? height then
    Returned (zip_with (fun v r => insert_from 0 obj v r) col arr)
  else if length col =? 1 then
    Returned (map (insert_from 0 obj (item col 0)) arr)
  else Raised ValueError.

(** ** The convex solver as an oracle *)

(** The [.value] attributes of the cvxpy variables [x], [z] and [q];
    [None] until a solve stores a solution. *)
Record values := {
  x_value : option matrix;
  z_value : option matrix;
  q_value : option matrix
}.

Definition no_values : values :=
  {| x_value := None; z_value := None; q_value := None |}.

(** The data one [cvx.Problem] of [balance_multi_cvx] is built from. *)
Record problem := {
  p_hh_table : matrix;
  p_A : matrix;
  p_B : matrix;
  p_w : matrix;
  p_mu : matrix;
  p_meta_mu : matrix
}.

(** One call of [prob.solve]: it returns, leaving values in the variables,
    or raises [cvx.SolverError], leaving them as they were.  No pass of the
    retry loop reads the variables before its first solve has returned, so
    the loop does not carry the earlier values along. *)
Inductive solve_outcome :=
| Solved (v : values)
| SolverFailed.

(** The oracle is told how many solves the call has already made, so that
    it covers deterministic and stateful (warm-started) solvers alike. *)
Definition solver := nat -> problem -> solve_outcome.

(** ** balance_multi_cvx *)

(** [np.where(mu > 10, mu - 10, 1)] *)
Definition relax_entry (e : Q) : Q :=
  if Qlt_bool 10 e then (e - 10)%Q else 1%Q.
Definition relax_mu (mu : matrix) : matrix := map (map relax_entry) mu.

(** [np.all(mu == 1)] *)
Definition all_ones (mu : matrix) : bool :=
  forallb (forallb (fun e => Qeq_bool e 1)) mu.

(** What the [while not solved] loop leaves behind: the variables' values,
    the local [mu], the flag [importance_weights_relaxed] and the number of
    backoff steps taken. *)
Record loop_exit := {
  exit_values : values;
  exit_mu : matrix;
  importance_weights_relaxed : bool;
  backoffs : nat
}.

(** The retry loop, lines 120-157.  [fuel] bounds the number of passes
    ([None]: fuel exhausted), [calls] counts the solves made so far. *)
Fixpoint retry_loop (solve : solver) (mk : matrix -> problem)
    (fuel calls : nat) (mu : matrix) (relaxed : bool) (steps : nat)
  : option (result loop_exit) :=
  match fuel with
  | 0 => None
  | S fuel' =>
      let prob := mk mu in
      (* line 146: prob.solve(...) before the try block *)
      match solve calls prob with
      | SolverFailed => Some (Raised SolverError)
      | Solved v1 =>
          (* lines 148-150: try: prob.solve(...); solved = True *)
          match solve (S calls) prob with
          | Solved v2 =>
              Some (Returned {| exit_values := v2; exit_mu := mu;
                                importance_weights_relaxed := relaxed;
                                backoffs := steps |})
          | SolverFailed =>
              (* lines 152-157: except cvx.SolverError *)
              if all_ones mu then
                Some (Returned {| exit_values := v1; exit_mu := mu;
                                  importance_weights_relaxed := relaxed;
                                  backoffs := steps |})
              else
                retry_loop solve mk fuel' (S (S calls)) (relax_mu mu) true
                  (S steps)
          end
      end
  end.

(** Passes one entry of [mu] can force before it has reached 1. *)
Definition entry_budget (e : Q) : nat :=
  if Qeq_bool e 1 then 0 else S (Z.to_nat (Qfloor (e / 10))).
Definition backoff_budget (mu : matrix) : nat :=
  sum_list (map (fun r => sum_list (map entry_budget r)) mu).

(** Lines 107-110: [wa = (np.sum(A, axis=1) / np.sum(A)).reshape(-1, 1)] and
    [w = np.array(w) * np.array(wa)]. *)
Definition tract_shares (A : matrix) : vector :=
  map (fun s => (s / np_sum_all A)%Q) (np_sum_rows A).
Definition rescale (w : matrix) (wa : vector) : matrix :=
  zip_with (fun wr a => map (fun v => (v * a)%Q) wr) w wa.

(** Lines 89-102: the zero-marginal tracts, and the arrays without them. *)
Definition zero_marginals (A : matrix) : list nat :=
  np_where (map (fun r => negb (row_any r)) A).

Definition remove_tracts (zm : list nat) (A w mu : matrix)
  : matrix * matrix * matrix :=
  match zm with
  | [] => (A, w, mu)
  | _ => (np_delete A zm, np_delete w zm, map (fun r => np_delete r zm) mu)
  end.

(** Lines 172-175: re-insertion of the removed tracts. *)
Definition insert_zeros (n_samples n_controls : nat) (zm : list nat)
    (weights_out : matrix) (v : values)
  : result (matrix * option matrix) :=
  let zero_weights := replicate n_controls 0%Q in
  match zm with
  | [] => Returned (weights_out, z_value v)
  | _ =>
      match np_insert_rows n_samples weights_out zm zero_weights with
      | Raised e => Raised e
      | Returned weights_out' =>
          match z_value v with
          | None =>
              (* np.insert(None, ..., 1): there is no second axis *)
              Raised AxisError
          | Some zv =>
              match np_insert_cols n_controls zv zm zero_weights with
              | Raised e => Raised e
              | Returned zs_out => Returned (weights_out', Some zs_out)
              end
          end
      end
  end.

(** The prior after preprocessing (the local [w] from line 110 on). *)
Definition rescaled_prior (A w mu : matrix) : matrix :=
  let '(A', w', _) := remove_tracts (zero_marginals A) A w mu in
  rescale w' (tract_shares A').

(** The function with an explicit bound on the passes of its loop. *)
Definition balance_multi_cvx_fuel (fuel : nat) (solve : solver)
    (hh_table A B w mu meta_mu : matrix)
  : option (result (matrix * option matrix * option matrix)) :=
  let n_samples := length hh_table in
  let n_controls := ncols hh_table in
  let zm := zero_marginals A in
  let '(A', w', mu') := remove_tracts zm A w mu in
  let w'' := rescale w' (tract_shares A') in
  let mk := fun m =>
    {| p_hh_table := hh_table; p_A := A'; p_B := B; p_w := w'';
       p_mu := m; p_meta_mu := meta_mu |} in
  match retry_loop solve mk fuel 0 mu' false 0 with
  | None => None
  | Some (Raised e) => Some (Raised e)
  | Some (Returned ex) =>
      let v := exit_values ex in
      (* line 168 *)
      let weights_out :=
        match x_value v with
        | Some xv => if np_any xv then xv else w''
        | None => w''
        end in
      match insert_zeros n_samples n_controls zm weights_out v with
      | Raised e => Some (Raised e)
      | Returned (weights_out', zs_out) =>
          Some (Returned (weights_out', zs_out, q_value v))
      end
  end.

(** [balance_multi_cvx]: the loop is given one pass more than the backoff
    can ever need (see [retry_loop_total]). *)
Definition balance_multi_cvx (solve : solver)
    (hh_table A B w mu meta_mu : matrix)
  : option (result (matrix * option matrix * option matrix)) :=
  let '(_, _, mu') := remove_tracts (zero_marginals A) A w mu in
  balance_multi_cvx_fuel (S (backoff_budget mu')) solve
    hh_table A B w mu meta_mu.

(** ** Floats that can be infinite or NaN *)

(** The numbers [balance_newton] computes.  A finite float is an exact
    rational; a division by zero gives an infinity or NaN as in IEEE 754,
    NaN spreads through every operation and every comparison with NaN is
    false.  Rounding and overflow are outside the model, and the two zeros
    of IEEE 754 are one. *)
Inductive float := Fin (q : Q) | PInf | NInf | NaN.

Declare Scope fl_scope.
Delimit Scope fl_scope with fl.
Bind Scope fl_scope with float.

Definition fopp (a : float) : float :=
  match a with
  | Fin q => Fin (- q)
  | PInf => NInf
  | NInf => PInf
  | NaN => NaN
  end.

Definition fadd (a b : float) : float :=
  match a, b with
  | NaN, _ | _, NaN => NaN
  | Fin p, Fin q => Fin (p + q)
  | PInf, NInf | NInf, PInf => NaN
  | PInf, _ | _, PInf => PInf
  | NInf, _ | _, NInf => NInf
  end.

Definition fsub (a b : float) : float := fadd a (fopp b).

(** An infinity times a finite number: NaN for zero, else by the sign. *)
Definition inf_times (positive : bool) (q : Q) : float :=
  if Qeq_bool q 0 then NaN
  else if Bool.eqb positive (Qlt_bool 0 q) then PInf else NInf.

Definition fmul (a b : float) : float :=
  match a, b with
  | NaN, _ | _, NaN => NaN
  | Fin p, Fin q => Fin (p * q)
  | PInf, Fin q | Fin q, PInf => inf_times true q
  | NInf, Fin q | Fin q, NInf => inf_times false q
  | PInf, PInf | NInf, NInf => PInf
  | PInf, NInf | NInf, PInf => NInf
  end.

(** [a / b] as numpy computes it: a division by zero is no exception but
    an infinity, or NaN for [0 / 0]. *)
Definition fdiv (a b : float) : float :=
  match a, b with
  | NaN, _ | _, NaN => NaN
  | Fin p, Fin q =>
      if Qeq_bool q 0 then
        if Qeq_bool p 0 then NaN else if Qlt_bool 0 p then PInf else NInf
      else Fin (p / q)
  | Fin _, PInf | Fin _, NInf => Fin 0
  | PInf, Fin q => if Qlt_bool q 0 then NInf else PInf
  | NInf, Fin q => if Qlt_bool q 0 then PInf else NInf
  | PInf, PInf | PInf, NInf | NInf, PInf | NInf, NInf => NaN
  end.

Definition fabs (a : float) : float :=
  match a with
  | Fin q => Fin (Qabs q)
  | PInf | NInf => PInf
  | NaN => NaN
  end.

(** [a < b] and [a <= b]: false as soon as one side is NaN. *)
Definition flt (a b : float) : bool :=
  match a, b with
  | NaN, _ | _, NaN => false
  | Fin p, Fin q => Qlt_bool p q
  | NInf, NInf | PInf, _ | _, NInf => false
  | NInf, _ | _, PInf => true
  end.

Definition fle (a b : float) : bool :=
  match a, b with
  | NaN, _ | _, NaN => false
  | Fin p, Fin q => Qle_bool p q
  | NInf, _ | _, PInf => true
  | PInf, _ | _, NInf => false
  end.

Notation "a + b" := (fadd a b) : fl_scope.
Notation "a - b" := (fsub a b) : fl_scope.
Notation "a * b" := (fmul a b) : fl_scope.
Notation "a / b" := (fdiv a b) : fl_scope.
Notation "a <? b" := (flt a b) : fl_scope.
Notation "a <=? b" := (fle a b) : fl_scope.

(** The same float, finite values up to the equality of rationals (this
    is not the [==] of IEEE 754: NaN is the same float as NaN). *)
Definition feq (a b : float) : Prop :=
  match a, b with
  | Fin p, Fin q => p == q
  | PInf, PInf | NInf, NInf | NaN, NaN => True
  | _, _ => False
  end.

(** [np.sum] of a float array; without rounding the order of the
    additions does not change the result. *)
Definition fsum (v : list float) : float := foldr fadd (Fin 0) v.

(** Entry access in a float array. *)
Definition fitem (v : list float) (i : nat) : float :=
  default (Fin 0) (v !! i).

(** ** balance_newton *)

(** Constants for the Newton-Raphson list balancer (lines 11-13). *)
Definition MAX_GAP : Q := 1 # 10000000.
Definition MAX_ITERATIONS : nat := Z.to_nat 10000.

(** Python's built-in [max(a, b)] and [min(a, b)]: the first argument is
    kept unless the second is strictly better, so a NaN in first place is
    kept. *)
Definition py_max (a b : float) : float := if (a <? b)%fl then b else a.
Definition py_min (a b : float) : float := if (b <? a)%fl then b else a.

(** [np.dot(u.T, v)] for two columns of rationals, and for the float
    weights with a column of the household table. *)
Definition dot (u v : vector) : Q := np_sum (zip_with Qmult u v).
Definition fdot (u : list float) (v : vector) : float :=
  fsum (zip_with (fun p h => (p * Fin h)%fl) u v).

(** [np.ndenumerate(A)]: index pairs and entries, row by row. *)
Definition ndenumerate (A : matrix) : list (nat * nat * Q) :=
  concat (imap (fun i r => imap (fun k v => (i, k, v)) r) A).

(** The arrays the sweeps update in place. *)
Record sweep_state := {
  alpha : list float;
  z : list float;
  cur_w : list float
}.

(** [np.sum(np.absolute(cur_w - prev_w)) / cur_w.size]; for an empty
    array this is [0 / 0], NaN. *)
Definition weight_diff (cur prev : list float) : float :=
  (fsum (zip_with (fun c p => fabs (c - p)) cur prev)
   / Fin (inject_Z (Z.of_nat (length cur))))%fl.

(** [weight_diff <= MAX_GAP] (line 251) *)
Definition converged (cur prev : list float) : bool :=
  (weight_diff cur prev <=? Fin MAX_GAP)%fl.

Section Newton.

(** [a ** b] on floats *)
Variable power : float -> float -> float.

(** The inputs are arrays of finite numbers; [w] is a float array (in an
    integer array numpy would truncate every weight it stores). *)
Variables hh_table A mu : matrix.
Variable w : vector.

(** Lines 196-197. *)
Definition sample_weight_lower : vector := map (fun v => (v / 5)%Q) w.
Definition sample_weight_upper : vector := map (fun v => (v * 5)%Q) w.

(** Lines 216-231: the balancing factor of control [marginal_ind]. *)
Definition balancing_factor (prev_w zs : list float) (marginal_ind : nat)
    (marginal : Q) : float :=
  let control_weight := Fin (item2 mu 0 marginal_ind) in
  let data_col := column hh_table marginal_ind in
  let x := fdot prev_w data_col in
  let y := fdot prev_w (map (fun h => (h * h)%Q) data_col) in
  if (Fin 0 <? x)%fl then
    if Qlt_bool 0 marginal then
      let numer :=
        (x - Fin (item2 A 0 marginal_ind) * fitem zs marginal_ind)%fl in
      let denom :=
        (y + Fin (item2 A 0 marginal_ind) * fitem zs marginal_ind
             * (Fin 1 / control_weight))%fl in
      (Fin 1 - numer / denom)%fl
    else Fin (1 # 100)
  else Fin 1.

(** Lines 235-244: the update of one sample. *)
Definition update_sample (prev_w : list float) (a : float)
    (marginal_ind : nat) (cur : list float) (sample_ind : nat)
  : list float :=
  if Qlt_bool 0 (item2 hh_table sample_ind marginal_ind) then
    let c := (fitem prev_w sample_ind
              * power a (Fin (item2 hh_table sample_ind marginal_ind)))%fl in
    let c := py_max c (Fin (item sample_weight_lower sample_ind)) in
    let c := py_min c (Fin (item sample_weight_upper sample_ind)) in
    <[sample_ind := c]> cur
  else cur.

(** Lines 210-247: the body of the loop over [np.ndenumerate(A)]. *)
Definition control_step (prev_w : list float) (st : sweep_state)
    (entry : nat * nat * Q) : sweep_state :=
  let '(_, marginal_ind, marginal) := entry in
  let control_weight := Fin (item2 mu 0 marginal_ind) in
  let alpha' :=
    <[marginal_ind := balancing_factor prev_w (z st) marginal_ind marginal]>
      (alpha st) in
  let cur' :=
    foldl (update_sample prev_w (fitem alpha' marginal_ind) marginal_ind)
      (cur_w st) (seq 0 (length hh_table)) in
  let z' :=
    <[marginal_ind :=
        (fitem (z st) marginal_ind
         * power (Fin 1 / fitem alpha' marginal_ind)
             (Fin 1 / control_weight))%fl]>
      (z st) in
  {| alpha := alpha'; z := z'; cur_w := cur' |}.

(** One full sweep over all controls. *)
Definition sweep (prev_w : list float) (st : sweep_state) : sweep_state :=
  foldl (control_step prev_w) st (ndenumerate A).

(** Lines 208-254: [for it in range(MAX_ITERATIONS)], with the number of
    sweeps already completed carried along. *)
Fixpoint sweeps (its : nat) (prev_w : list float) (st : sweep_state)
    (done : nat) : sweep_state * nat :=
  match its with
  | 0 => (st, done)
  | S its' =>
      let st' := sweep prev_w st in
      if converged (cur_w st') prev_w then (st', S done)
      else sweeps its' (cur_w st') st' (S done)
  end.

(** Lines 199-206: the arrays before the first sweep. *)
Definition initial_state : sweep_state :=
  {| alpha := replicate (ncols hh_table) (Fin 1);
     z := replicate (ncols hh_table) (Fin 1);
     cur_w := map Fin w |}.

Definition newton_run : sweep_state * nat :=
  sweeps MAX_ITERATIONS (map Fin w) initial_state 0.

(** [balance_newton] returns [cur_w, z]. *)
Definition balance_newton : list float * list float :=
  (cur_w (fst newton_run), z (fst newton_run)).

(** The arrays after [j] sweeps none of which stopped the loop: the pair of
    [prev_w] and the state. *)
Fixpoint after_sweeps (j : nat) : list float * sweep_state :=
  match j with
  | 0 => (map Fin w, initial_state)
  | S j' =>
      let '(_, st) := after_sweeps j' in
      (cur_w st, sweep (cur_w st) st)
  end.

(** The stopping test of line 251 at the end of sweep [j]. *)
Definition stops_at (j : nat) : bool :=
  converged (cur_w (after_sweeps j).2) (after_sweeps j).1.

End Newton.

(** A weight is a number between a fifth and five times the initial
    weight [wi]. *)
Definition bounded_by (wi : Q) (r : float) : Prop :=
  exists q, r = Fin q /\ (wi / 5 <= q <= wi * 5)%Q.

(** Every weight of [ws] is a number within the bounds of its sample. *)
Definition within_bounds (w : vector) (ws : list float) : Prop :=
  length ws = length w /\
  forall i wi r, w !! i = Some wi -> ws !! i = Some r -> bounded_by wi r.

(** A float that is NaN, [+inf] or a number that is not negative, as a
    sum of absolute values is. *)
Definition not_negative (a : float) : Prop :=
  match a with
  | Fin q => (0 <= q)%Q
  | PInf | NaN => True
  | NInf => False
  end.

(** A float that is a number above zero. *)
Definition positive_number (a : float) : Prop := exists q, a = Fin q /\ (0 < q)%Q.

(** ** discretize_multi_weights *)

(** [x.astype(int)]: the cast to a 64-bit integer truncates towards
    zero; a value beyond the 64-bit range comes out as the smallest
    integer, [-2^63] (what the conversion instruction of x86-64 leaves). *)
Definition INT64_MIN : Z := (- 2 ^ 63)%Z.
Definition INT64_MAX : Z := (2 ^ 63 - 1)%Z.
Definition astype_int (v : Q) : Q :=
  let t := Z.quot (Qnum v) (Zpos (Qden v)) in
  if ((INT64_MIN <=? t) && (t <=? INT64_MAX))%Z then inject_Z t
  else inject_Z INT64_MIN.

(** The numbers whose truncation is a 64-bit integer. *)
Definition int64_range (v : Q) : Prop :=
  (- inject_Z (2 ^ 63) < v < inject_Z (2 ^ 63))%Q.

(** [np.dot(X, H)] for two 2-D arrays. *)
Definition matmul (X H : matrix) : matrix :=
  map (fun r => map (fun k => dot r (column H k)) (seq 0 (ncols H))) X.

Definition mat_sub (X Y : matrix) : matrix :=
  zip_with (zip_with Qminus) X Y.

(** The data of the discretizer's convex program. *)
Record selection_problem := {
  s_hh_table : matrix;
  s_x_log : matrix;
  s_A_residuals : matrix;
  s_gamma : Q
}.

(** One [prob.solve] of the discretizer, and [y.value] after it. *)
Inductive selection_outcome :=
| Selection (y_value : option matrix)
| SelectionFailed.

(** [np.array(y > 0.5).astype(int)] *)
Definition threshold (v : Q) : Q := if Qlt_bool (1 # 2) v then 1%Q else 0%Q.

Section Discretizer.

(** [np.log] on floats *)
Variable log : Q -> Q.
Variable solve_selection : selection_problem -> selection_outcome.

(** Lines 275-307: the program handed to the solver. *)
Definition selection_program (hh_table x : matrix) (gamma : Q)
  : selection_problem :=
  let x_int := map (map astype_int) x in
  let A_residuals := mat_sub (matmul x hh_table) (matmul x_int hh_table) in
  let x_residuals := mat_sub x x_int in
  let x_log := map (map log) x_residuals in
  {| s_hh_table := hh_table; s_x_log := x_log;
     s_A_residuals := A_residuals; s_gamma := gamma |}.

(** Without a solution [y.value] is [None], and [None > 0.5] is a
    [TypeError]. *)
Definition discretize_multi_weights (hh_table x : matrix) (gamma : Q)
  : result matrix :=
  match solve_selection (selection_program hh_table x gamma) with
  | SelectionFailed => Raised SolverError
  | Selection None => Raised TypeError
  | Selection (Some y) => Returned (map (map threshold) y)
  end.

End Discretizer.

(** ** Predicates used in the statements *)

(** An entry that is a whole number. *)
Definition whole (e : Q) : Prop := exists n : Z, e == inject_Z n.

(** Every entry of an array satisfies [P]; two arrays of one shape are
    related entry by entry. *)
Definition entries (P : Q -> Prop) (M : matrix) : Prop := Forall (Forall P) M.
Definition pointwise (R : Q -> Q -> Prop) (M N : matrix) : Prop :=
  Forall2 (Forall2 R) M N.

(** [with_added_rows v n rows out]: [out] holds the rows of [rows], in
    their order, and [n] more rows, each of them [v], at any positions. *)
Inductive with_added_rows (v : vector) : nat -> matrix -> matrix -> Prop :=
| added_none : with_added_rows v 0 [] []
| added_keep r n rows out :
    with_added_rows v n rows out ->
    with_added_rows v n (r :: rows) (r :: out)
| added_row n rows out :
    with_added_rows v n rows out ->
    with_added_rows v (S n) rows (v :: out).

(** ** Concrete inputs *)

Module Demo.

(** Two samples, two controls, one tract. *)
Definition hh_table : matrix := [[1; 0]; [0; 1]]%Q.
Definition A : matrix := [[2; 1]]%Q.
Definition B : matrix := [[2; 1]]%Q.
Definition w : matrix := [[1; 1]]%Q.
Definition mu : matrix := [[1000]; [1000]]%Q.
Definition meta_mu : matrix := [[1000]; [1000]]%Q.

(** A solver that rejects every problem. *)
Definition rejecting : solver := fun _ _ => SolverFailed.

(** A solver that finds nothing: it returns without a solution. *)
Definition fruitless : solver := fun _ _ => Solved no_values.

(** A solver whose first solve of a pass returns and whose second one,
    inside the [try], fails. *)
Definition flaky : solver :=
  fun calls _ => if Nat.even calls then Solved no_values else SolverFailed.

Definition mk (m : matrix) : problem :=
  {| p_hh_table := hh_table; p_A := A; p_B := B; p_w := w; p_mu := m;
     p_meta_mu := meta_mu |}.

(** Three tracts, the first two without marginals. *)
Definition A3 : matrix := [[0; 0]; [0; 0]; [1; 1]]%Q.
Definition w3 : matrix := [[1; 1]; [1; 1]; [1; 1]]%Q.
Definition mu3 : matrix := [[1000; 1000; 1000]; [1000; 1000; 1000]]%Q.
Definition B3 : matrix := [[1; 1]]%Q.

(** A solver that returns the same solution for the one remaining tract. *)
Definition steady : solver :=
  fun _ _ =>
    Solved {| x_value := Some [[1; 1]]%Q;
              z_value := Some [[1]; [1]]%Q;
              q_value := Some [[1]; [1]]%Q |}.

(** One sample, one control, two tracts, the first without marginals; the
    solver returns the all-zero point, which meets every constraint. *)
Definition hh1 : matrix := [[1]]%Q.
Definition A2 : matrix := [[0]; [1]]%Q.
Definition B2 : matrix := [[1]]%Q.
Definition w2 : matrix := [[1]; [1]]%Q.
Definition mu2 : matrix := [[1000; 1000]]%Q.
Definition meta_mu2 : matrix := [[1000]]%Q.
Definition zero_x : solver :=
  fun _ _ =>
    Solved {| x_value := Some [[0]]%Q;
              z_value := Some [[0]]%Q;
              q_value := Some [[0]]%Q |}.

(** A power function.  It agrees with [pow] of IEEE 754 where the
    exponent is a whole number, where the base is 0 or 1, and where the
    base is negative and the exponent fractional, which is NaN.  For the
    other finite arguments the value of [pow] is irrational and the power
    with the exponent rounded down stands in for it; infinite arguments
    are given NaN. *)
Definition int_power (a b : float) : float :=
  match a, b with
  | Fin p, Fin q =>
      if Qeq_bool p 0 then
        if Qeq_bool q 0 then Fin 1
        else if Qlt_bool 0 q then Fin 0 else PInf
      else if Qeq_bool q (inject_Z (Qfloor q)) then Fin (p ^ Qfloor q)
      else if Qlt_bool p 0 then NaN
      else Fin (p ^ Qfloor q)
  | _, _ => NaN
  end.

(** Three samples, the last one in no control; one tract. *)
Definition hh3 : matrix := [[1; 0]; [0; 1]; [0; 0]]%Q.
Definition mu_row : matrix := [[1000; 1000]]%Q.
Definition w_col : vector := [1; 1; 1]%Q.
Definition start : sweep_state :=
  initial_state hh3 w_col.

(** One sample that counts for half a household in the only control. *)
Definition hh_half : matrix := [[1 # 2]]%Q.
Definition A_tenth : matrix := [[1 # 10]]%Q.
Definition mu_one : matrix := [[1]]%Q.
Definition w_one : vector := [1]%Q.

(** A fractional solution of the discretizer's program. *)
Definition half_open : selection_problem -> selection_outcome :=
  fun _ => Selection (Some [[3 # 4; 1 # 4]; [1 # 2; 1]]%Q).
Definition no_log (v : Q) : Q := 0%Q.

End Demo.

(** ** Further predicates and inputs *)

(** Every row of a 2-D array has the array's number of columns. *)
Definition rectangular (M : matrix) : Prop :=
  Forall (fun r => length r = ncols M) M.

(** A row of marginals with no non-zero entry. *)
Definition all_zero (r : vector) : Prop := Forall (fun v => v == 0) r.

Module Cases.

(** Three samples, two controls and two tracts, the second one without
    marginals. *)
Definition hh32 : matrix := [[1; 0]; [0; 1]; [1; 1]]%Q.
Definition A_tail : matrix := [[2; 1]; [0; 0]]%Q.
Definition B_tail : matrix := [[2; 1]]%Q.
Definition w_tail : matrix := [[1; 1; 1]; [1; 1; 1]]%Q.
Definition mu_tail : matrix := [[1000; 1000]; [1000; 1000]]%Q.

(** Two samples, two controls and three tracts, the middle one without
    marginals; the solver returns a solution for the two others. *)
Definition A_mid : matrix := [[1; 1]; [0; 0]; [2; 1]]%Q.
Definition B_mid : matrix := [[3; 2]]%Q.
Definition solved_two : solver :=
  fun _ _ =>
    Solved {| x_value := Some [[1; 1]; [2; 1]]%Q;
              z_value := Some [[1; 1]; [1; 1]]%Q;
              q_value := Some [[1]; [1]]%Q |}.

(** Three tracts, the last two without marginals; the solver returns a
    solution for the first. *)
Definition A_last : matrix := [[1; 1]; [0; 0]; [0; 0]]%Q.

(** Initial weights that are zero, positive and negative, for the
    household table [Demo.hh3]. *)
Definition w_mixed : vector := [0; 2; -1]%Q.

(** Two samples, the second one counted twice in the only control, with
    a positive and a negative initial weight. *)
Definition hh_two : matrix := [[1]; [2]]%Q.
Definition mu_high : matrix := [[1000]]%Q.
Definition w_signs : vector := [10; -1 # 10]%Q.

(** Weights of two tracts over two samples, with whole and fractional
    parts. *)
Definition x_frac : matrix := [[3 # 2; 1 # 2]; [1 # 2; 5 # 4]]%Q.

End Cases.

(** * doppelganger.datasource

    The data sources wrap pandas tables.  A table is a list of column
    names and a list of rows; a row has an index label ([None] for a null
    label) and a cell for every column name.  Cells, labels and the
    [state] and [puma] arguments are Python values; [str] is Python's
    conversion to text, which [astype(str)] applies cell by cell.  The
    preprocessor is a parameter, and so are the field descriptions of the
    [inputs] module. *)

From stdpp Require Import gmap strings.

Module DataSource.

(** A field description of the [inputs] module: its [name] and its
    [pums_name]. *)
Record field := {
  name : string;
  pums_name : string
}.

(** [PumsData.__init__], line 46:
    [{field.name: field.pums_name for field in inputs.PUMS_INPUTS}];
    a later field replaces an earlier one of the same name. *)
Definition name_map (PUMS_INPUTS : list field) : gmap string string :=
  foldl (fun m f => <[name f := pums_name f]> m) ∅ PUMS_INPUTS.

(** Looking a column up: found, or Python's [KeyError]. *)
Inductive access (T : Type) :=
| Found (v : T)
| KeyError.
Arguments Found {T} v.
Arguments KeyError {T}.

Section Tables.

Variable value : Type.
Variable str : value -> string.

(** [inputs.STATE.name] and [inputs.PUMA.name] *)
Variables STATE_name PUMA_name : string.

Record row := {
  label : option value;
  cell : string -> value
}.

Record frame := {
  columns : list string;
  rows : list row
}.

(** [df[name]] *)
Definition get_column (df : frame) (col : string) : access (list value) :=
  if bool_decide (col ∈ columns df)
  then Found (map (fun r => cell r col) (rows df))
  else KeyError.

(** [~df.index.isnull()] *)
Definition index_not_null (df : frame) : list bool :=
  map (fun r => bool_decide (label r <> None)) (rows df).

(** [query_idx & (column.astype(str) == str(key))] *)
Definition and_equal (query_idx : list bool) (column : list value)
    (key : value) : list bool :=
  zip_with andb query_idx
    (map (fun v => bool_decide (str v = str key)) column).

(** [df[query_idx]]: the rows whose flag is [True], in their order. *)
Definition select (df : frame) (query_idx : list bool) : frame :=
  {| columns := columns df;
     rows := (filter (fun p => p.2 = true) (zip (rows df) query_idx)).*1 |}.

(** One optional condition of [clean] (lines 32-35). *)
Definition narrow (df : frame) (query_idx : list bool) (col : string)
    (key : option value) : access (list bool) :=
  match key with
  | None => Found query_idx
  | Some k =>
      match get_column df col with
      | Found column => Found (and_equal query_idx column k)
      | KeyError => KeyError
      end
  end.

(** [DirtyDataSource.clean], lines 28-37. *)
Definition clean
    (preprocessor : frame -> list string -> gmap string string -> frame)
    (data : frame) (names : gmap string string) (field_names : list string)
    (state puma : option value) : access frame :=
  let cleaned_data := preprocessor data field_names names in
  match state, puma with
  | None, None => Found cleaned_data
  | _, _ =>
      let query_idx := index_not_null cleaned_data in
      match narrow cleaned_data query_idx STATE_name state with
      | KeyError => KeyError
      | Found query_idx =>
          match narrow cleaned_data query_idx PUMA_name puma with
          | KeyError => KeyError
          | Found query_idx => Found (select cleaned_data query_idx)
          end
      end
  end.

(** The rows [clean] is asked for: a label that is not null, and the text
    of the state and PUMA cells equal to the text of the arguments
    given. *)
Definition wanted (state puma : option value) (r : row) : Prop :=
  is_Some (label r) /\
  match state with
  | Some s => str (cell r STATE_name) = str s
  | None => True
  end /\
  match puma with
  | Some p => str (cell r PUMA_name) = str p
  | None => True
  end.

#[global] Instance wanted_dec state puma r : Decision (wanted state puma r).
Proof. unfold wanted. destruct state, puma; apply _. Defined.

End Tables.

End DataSource.

Module TableCases.

(** Cells that are text already. *)
Definition str (s : string) : string := s.

Definition household (l : option string) (st pu : string)
  : DataSource.row string :=
  {| DataSource.label := l;
     DataSource.cell := fun c => if String.eqb c "state" then st else pu |}.

(** Three households, the second one with a null index label. *)
Definition h1 : DataSource.row string := household (Some "h1") "06" "00101".
Definition h2 : DataSource.row string := household None "06" "00101".
Definition h3 : DataSource.row string := household (Some "h3") "36" "00101".

Definition table : DataSource.frame string :=
  {| DataSource.columns := ["state"; "puma"];
     DataSource.rows := [h1; h2; h3] |}.

(** A preprocessor that hands the table on. *)
Definition keep (d : DataSource.frame string) (_ : list string)
    (_ : gmap string string) : DataSource.frame string := d.

End TableCases.

(** * Properties *)

(** ** Comparisons *)

Lemma Qlt_bool_true (a b : Q) : Qlt_bool a b = true <-> (a < b)%Q.
Proof.
  unfold Qlt_bool. rewrite negb_true_iff.
  destruct (Qle_bool b a) eqn:E.
  - apply Qle_bool_iff in E. split; [discriminate | intros H; lra].
  - split; [intros _ | reflexivity].
    apply Qnot_le_lt. intros H. apply Qle_bool_iff in H. congruence.
Qed.

Lemma Qlt_bool_false (a b : Q) : Qlt_bool a b = false <-> (b <= a)%Q.
Proof.
  unfold Qlt_bool. rewrite negb_false_iff. apply Qle_bool_iff.
Qed.

(** Case analysis on the first comparison of two numbers in the goal. *)
Ltac case_Qlt :=
  match goal with
  | |- context [Qlt_bool ?a ?b] =>
      let E := fresh "E" in
      destruct (Qlt_bool a b) eqn:E;
      [apply Qlt_bool_true in E | apply Qlt_bool_false in E]
  end.

(** ** The backoff of the importance weights *)

Lemma relax_entry_le (e : Q) : (1 <= e)%Q -> (relax_entry e <= e)%Q.
Proof.
  intros H. unfold relax_entry. case_Qlt; lra.
Qed.

Lemma relax_entry_whole (e : Q) :
  whole e -> (1 <= e)%Q -> whole (relax_entry e) /\ (1 <= relax_entry e)%Q.
Proof.
  intros [n Hn] H1. unfold relax_entry. case_Qlt.
  - split.
    + exists (n - 10)%Z. rewrite Hn. unfold Qeq. simpl. lia.
    + rewrite Hn in E. 
      assert (10 < n)%Z as Hz.
      { rewrite Zlt_Qlt. exact E. }
      rewrite Hn.
      assert (inject_Z 11 <= inject_Z n)%Q as Hq.
      { rewrite <- Zle_Qle. lia. }
      change (inject_Z 11) with 11%Q in Hq. lra.
  - split; [exists 1%Z; reflexivity | lra].
Qed.

Lemma floor_pred_lt (t : Q) : (Qfloor (t - 1) < Qfloor t)%Z.
Proof.
  pose proof (Qfloor_le (t - 1)) as Hlo.
  pose proof (Qlt_floor t) as Hhi.
  rewrite inject_Z_plus in Hhi. change (inject_Z 1) with 1%Q in Hhi.
  rewrite Zlt_Qlt. lra.
Qed.

Lemma entry_budget_relax (e : Q) :
  entry_budget (relax_entry e) <= entry_budget e /\
  (Qeq_bool e 1 = false -> entry_budget (relax_entry e) < entry_budget e).
Proof.
  unfold relax_entry. case_Qlt.
  - assert (Qeq_bool e 1 = false) as Hne.
    { destruct (Qeq_bool e 1) eqn:E1; [|reflexivity].
      apply Qeq_bool_eq in E1. lra. }
    assert (entry_budget (e - 10) < entry_budget e); [|split; auto; lia].
    unfold entry_budget. rewrite Hne.
    destruct (Qeq_bool (e - 10) 1); [lia|].
    apply ->Nat.succ_lt_mono.
    assert ((e - 10) / 10 == e / 10 - 1)%Q as Heq by (field).
    rewrite (Qfloor_comp _ _ Heq).
    pose proof (floor_pred_lt (e / 10)).
    assert (1 <= Qfloor (e / 10))%Z.
    { rewrite <- (Qfloor_Z 1). apply Qfloor_resp_le.
      change (inject_Z 1) with 1%Q. 
      apply Qle_shift_div_l; lra. }
    lia.
  - change (entry_budget 1) with 0. split; [lia|].
    intros Hne. unfold entry_budget. rewrite Hne. lia.
Qed.

Lemma backoff_budget_relax (mu : matrix) :
  backoff_budget (relax_mu mu) <= backoff_budget mu /\
  (all_ones mu = false -> backoff_budget (relax_mu mu) < backoff_budget mu).
Proof.
  unfold backoff_budget, relax_mu, all_ones.
  assert (forall r : vector,
    sum_list (map entry_budget (map relax_entry r))
      <= sum_list (map entry_budget r) /\
    (forallb (fun e => Qeq_bool e 1) r = false ->
     sum_list (map entry_budget (map relax_entry r))
       < sum_list (map entry_budget r))) as Hrow.
  { induction r as [|e r [IHle IHlt]]; simpl.
    - split; [lia | discriminate].
    - destruct (entry_budget_relax e) as [Hle Hlt]. split; [lia|].
      destruct (Qeq_bool e 1); simpl; intros Hf.
      + specialize (IHlt Hf). lia.
      + specialize (Hlt eq_refl). lia. }
  induction mu as [|r mu [IHle IHlt]]; simpl.
  - split; [lia | discriminate].
  - destruct (Hrow r) as [Hle Hlt]. split; [lia|].
    destruct (forallb (fun e => Qeq_bool e 1) r); simpl; intros Hf.
    + specialize (IHlt Hf). lia.
    + specialize (Hlt eq_refl). lia.
Qed.

(** The loop returns whenever it is given more passes than the budget of
    its [mu]; the [mu] it leaves is an iterate of the backoff step. *)
Lemma retry_loop_total solve mk fuel calls (mu : matrix) relaxed steps :
  backoff_budget mu < fuel ->
  exists r, retry_loop solve mk fuel calls mu relaxed steps = Some r.
Proof.
  revert calls mu relaxed steps.
  induction fuel as [|fuel IH]; intros calls mu relaxed steps Hb; [lia|].
  simpl. destruct (solve calls (mk mu)); [|eauto].
  destruct (solve (S calls) (mk mu)); [eauto|].
  destruct (all_ones mu) eqn:E; [eauto|].
  apply IH. destruct (backoff_budget_relax mu) as [_ Hlt].
  specialize (Hlt E). lia.
Qed.

Lemma retry_loop_exit solve mk fuel calls (mu : matrix) relaxed steps ex :
  retry_loop solve mk fuel calls mu relaxed steps = Some (Returned ex) ->
  exists k,
    exit_mu ex = Nat.iter k relax_mu mu /\
    backoffs ex = steps + k /\
    k <= backoff_budget mu /\
    (exists c m, solve c (mk m) = Solved (exit_values ex)).
Proof.
  revert calls mu relaxed steps.
  induction fuel as [|fuel IH]; intros calls mu relaxed steps; [discriminate|].
  simpl. destruct (solve calls (mk mu)) as [v1|] eqn:E1; [|discriminate].
  destruct (solve (S calls) (mk mu)) as [v2|] eqn:E2.
  - intros [= <-]. exists 0. simpl. repeat split; eauto with lia.
  - destruct (all_ones mu) eqn:E.
    + intros [= <-]. exists 0. simpl. repeat split; eauto with lia.
    + intros H. apply IH in H as (k & Hmu & Hs & Hk & Hv).
      exists (S k). rewrite Nat.iter_succ_r.
      destruct (backoff_budget_relax mu) as [_ Hlt]. specialize (Hlt E).
      repeat split; auto; lia.
Qed.

(** ** Claims about balance_multi_cvx *)

Lemma map_fmap {T U} (f : T -> U) (l : list T) : map f l = f <$> l.
Proof. reflexivity. Qed.

(** A solver error raised by the solve on line 146 leaves the function. *)
Lemma first_solve_failure_escapes solve mk fuel (mu : matrix) relaxed steps :
  solve 0 (mk mu) = SolverFailed ->
  retry_loop solve mk (S fuel) 0 mu relaxed steps = Some (Raised SolverError).
Proof. intros H. simpl. rewrite H. reflexivity. Qed.

(** The budget given to the loop suffices: the function always yields a
    result, a return or a raise. *)
Lemma balance_multi_cvx_total (solve : solver)
    (hh_table A B w mu meta_mu : matrix) :
  exists r, balance_multi_cvx solve hh_table A B w mu meta_mu = Some r.
Proof.
  unfold balance_multi_cvx, balance_multi_cvx_fuel.
  destruct (remove_tracts (zero_marginals A) A w mu) as [[A' w'] mu'].
  match goal with
  | |- context [retry_loop ?s ?m ?f ?c ?u ?b ?n] =>
      destruct (retry_loop_total s m f c u b n) as [r ->]; [lia|]
  end.
  destruct r as [ex|e]; [|eauto].
  destruct (insert_zeros _ _ _ _ _) as [[wo zo]|e]; eauto.
Qed.

Example relax_mu_default : relax_mu [[1000; 10]; [7; 1]]%Q = [[990; 1]; [1; 1]]%Q.
Proof. reflexivity. Qed.

(** C1 (the code departs from the claim): with a solver that signals
    failure, the hierarchical balancer raises [SolverError]: the solve on
    line 146 stands outside the [try] block, so the failure reaches the
    caller instead of being absorbed by the retry loop. *)
Theorem solver_failure_reaches_caller :
  balance_multi_cvx Demo.rejecting Demo.hh_table Demo.A Demo.B Demo.w
    Demo.mu Demo.meta_mu = Some (Raised SolverError).
Proof. reflexivity. Qed.

Lemma relax_mu_whole (mu : matrix) :
  entries (fun e => whole e /\ (1 <= e)%Q) mu ->
  entries (fun e => whole e /\ (1 <= e)%Q) (relax_mu mu) /\
  pointwise Qle (relax_mu mu) mu.
Proof.
  unfold entries, pointwise, relax_mu. rewrite !map_fmap.
  intros H. split.
  - apply Forall_fmap. eapply Forall_impl; [exact H|].
    intros r Hr. simpl. rewrite map_fmap. apply Forall_fmap.
    eapply Forall_impl; [exact Hr|].
    intros e [Hw H1]. simpl. apply relax_entry_whole; assumption.
  - induction H as [|r mu Hr _ IH]; constructor; [|exact IH].
    rewrite map_fmap.
    induction Hr as [|e r [_ H1] _ IHr]; constructor; [|exact IHr].
    apply relax_entry_le, H1.
Qed.




(** The values the loop leaves in [x] come from a solve that returned. *)
Lemma retry_loop_fruitless solve mk fuel calls (mu : matrix) relaxed steps ex :
  (forall c p v, solve c p = Solved v -> np_any_value (x_value v) = false) ->
  retry_loop solve mk fuel calls mu relaxed steps = Some (Returned ex) ->
  np_any_value (x_value (exit_values ex)) = false.
Proof.
  intros Hnone H.
  apply retry_loop_exit in H as (_ & _ & _ & _ & c & m & Hv).
  eapply Hnone, Hv.
Qed.

(** *** What [np.insert] does to an array *)

Lemma insert_from_sublist {T} (v : T) (obj : list nat) (arr : list T) p :
  arr `sublist_of` insert_from p obj v arr.
Proof.
  revert p. induction arr as [|a arr IH]; intros p; simpl.
  - apply sublist_nil_l.
  - apply sublist_inserts_l, sublist_skip, IH.
Qed.

Lemma insert_from_elem {T} (v : T) (obj : list nat) (arr : list T) p r :
  r ∈ insert_from p obj v arr -> r = v \/ r ∈ arr.
Proof.
  revert p. induction arr as [|a arr IH]; intros p; simpl;
    rewrite elem_of_app, elem_of_replicate.
  - intros [[-> _]|H]; [left; reflexivity | right; exact H].
  - rewrite !elem_of_cons. intros [[-> _]|[->|H]]; auto.
    destruct (IH _ H); auto.
Qed.

Lemma count_split (obj : list nat) (p n : nat) :
  length (filter (eq p) obj)
    + length (filter (fun i => S p <= i <= S p + n) obj)
  = length (filter (fun i => p <= i <= p + S n) obj).
Proof.
  induction obj as [|i obj IH]; [reflexivity|].
  rewrite !filter_cons.
  repeat case_decide; simpl in *; lia.
Qed.

Lemma insert_from_length {T} (v : T) (obj : list nat) (arr : list T) p :
  length (insert_from p obj v arr)
  = length arr + length (filter (fun i => p <= i <= p + length arr) obj).
Proof.
  revert p. induction arr as [|a arr IH]; intros p; simpl;
    rewrite length_app, length_replicate.
  - simpl. f_equal. induction obj as [|i obj IHo]; [reflexivity|].
    rewrite !filter_cons. repeat case_decide; simpl in *; lia.
  - simpl. rewrite IH, <- count_split. lia.
Qed.

Lemma filter_all_length (P : nat -> Prop) `{forall i, Decision (P i)}
    (obj : list nat) :
  Forall P obj -> length (filter P obj) = length obj.
Proof.
  induction 1 as [|i obj Hi _ IH]; [reflexivity|].
  rewrite filter_cons. case_decide; [simpl; lia | contradiction].
Qed.

Lemma added_rows_first (v : vector) (c n : nat) (rows out : matrix) :
  with_added_rows v n rows out ->
  with_added_rows v (c + n) rows (replicate c v ++ out).
Proof.
  intros H. induction c as [|c IH]; [exact H|].
  simpl. apply added_row, IH.
Qed.

Lemma count_at_end (obj : list nat) (p : nat) :
  length (filter (eq p) obj)
  = length (filter (fun i => p <= i <= p + 0) obj).
Proof.
  induction obj as [|i obj IH]; [reflexivity|].
  rewrite !filter_cons. repeat case_decide; simpl in *; lia.
Qed.

Lemma insert_from_added (v : vector) (obj : list nat) (arr : matrix) p :
  with_added_rows v
    (length (filter (fun i => p <= i <= p + length arr) obj))
    arr (insert_from p obj v arr).
Proof.
  revert p. induction arr as [|a arr IH]; intros p; cbn [insert_from length].
  - rewrite <- count_at_end.
    pose proof (added_rows_first v (length (filter (eq p) obj)) 0 [] []
                  (added_none v)) as H.
    rewrite Nat.add_0_r in H. exact H.
  - rewrite <- count_split.
    apply added_rows_first, added_keep, IH.
Qed.

(** The rows of the array stay, in their order; every other row of the
    result is a zero row, one per index. *)
Lemma np_insert_rows_zero (width n : nat) (arr out : matrix)
    (obj : list nat) :
  np_insert_rows width arr obj (replicate n 0%Q) = Returned out ->
  with_added_rows (replicate width 0%Q) (length obj) arr out /\
  arr `sublist_of` out /\
  length out = length arr + length obj /\
  forall r, r ∈ out -> r ∈ arr \/ r = replicate width 0%Q.
Proof.
  unfold np_insert_rows.
  destruct (forallb _ obj) eqn:Hidx; simpl; [|discriminate].
  assert (Forall (fun i => 0 <= i <= 0 + length arr) obj) as Hall.
  { apply Forall_forall. intros i Hi.
    rewrite forallb_forall in Hidx.
    specialize (Hidx i (proj1 (list_elem_of_In _ _) Hi)).
    apply Nat.leb_le in Hidx. lia. }
  rewrite length_replicate.
  assert (forall row, Returned (insert_from 0 obj row arr) = Returned out ->
    row = replicate width 0%Q ->
    with_added_rows (replicate width 0%Q) (length obj) arr out /\
    arr `sublist_of` out /\
    length out = length arr + length obj /\
    forall r, r ∈ out -> r ∈ arr \/ r = replicate width 0%Q) as Hcase.
  { intros row [= <-] ->. split.
    { rewrite <- (filter_all_length _ obj Hall). apply insert_from_added. }
    split; [apply insert_from_sublist|]. split.
    - rewrite insert_from_length, filter_all_length by exact Hall.
      reflexivity.
    - intros r Hr. apply insert_from_elem in Hr as [->|Hr]; auto. }
  destruct (n =? width) eqn:En.
  - apply Nat.eqb_eq in En as ->. intros H. eapply Hcase; eauto.
  - destruct (n =? 1) eqn:E1; [|discriminate].
    apply Nat.eqb_eq in E1 as ->. intros H. eapply Hcase; eauto.
Qed.

(** C3 (amended): whenever the call returns and the solver never produced
    a non-zero [x], the returned weight matrix holds the rows of the
    rescaled prior [w], in their order, and as many more rows as
    preprocessing removed zero-marginal tracts, each of them an all-zero
    row of one entry per sample; when [A] has no zero-marginal tract it
    equals the rescaled prior exactly. *)
Theorem fallback_is_rescaled_prior (solve : solver)
    (hh_table A B w mu meta_mu : matrix)
    (weights : matrix) (zs qs : option matrix) :
  (forall c p v, solve c p = Solved v -> np_any_value (x_value v) = false) ->
  balance_multi_cvx solve hh_table A B w mu meta_mu
    = Some (Returned (weights, zs, qs)) ->
  (zero_marginals A = [] -> weights = rescaled_prior A w mu) /\
  with_added_rows (replicate (length hh_table) 0%Q)
    (length (zero_marginals A)) (rescaled_prior A w mu) weights /\
  rescaled_prior A w mu `sublist_of` weights /\
  length weights
    = length (rescaled_prior A w mu) + length (zero_marginals A) /\
  (forall r, r ∈ weights ->
     r ∈ rescaled_prior A w mu \/ r = replicate (length hh_table) 0%Q).
Proof.
  intros Hnone. unfold balance_multi_cvx, balance_multi_cvx_fuel, rescaled_prior.
  destruct (remove_tracts (zero_marginals A) A w mu) as [[A' w'] mu'].
  destruct (retry_loop _ _ _ _ _ _ _) as [[ex|e]|] eqn:Hloop; [|discriminate..].
  pose proof (retry_loop_fruitless _ _ _ _ _ _ _ _ Hnone Hloop) as Hx.
  assert (match x_value (exit_values ex) with
          | Some xv => if np_any xv then xv else rescale w' (tract_shares A')
          | None => rescale w' (tract_shares A')
          end = rescale w' (tract_shares A')) as ->.
  { destruct (x_value (exit_values ex)) as [xv|]; [|reflexivity].
    simpl in Hx. rewrite Hx. reflexivity. }
  unfold insert_zeros.
  destruct (zero_marginals A) as [|i zm].
  - intros [= <- _ _]. rewrite Nat.add_0_r.
    split; [reflexivity|]. split.
    { clear. induction (rescale w' (tract_shares A')) as [|r rows IH];
        [apply added_none | apply added_keep, IH]. }
    repeat split; auto.
  - destruct (np_insert_rows _ _ _ _) as [wo|e] eqn:Hins; [|discriminate].
    destruct (z_value (exit_values ex)) as [zv|]; [|discriminate].
    destruct (np_insert_cols _ _ _ _) as [zo|e]; [|discriminate].
    intros [= <- _ _].
    apply np_insert_rows_zero in Hins as (Hadd & Hsub & Hlen & Hrows).
    split; [discriminate|]. auto.
Qed.

Lemma fallback_is_rescaled_prior_witness :
  (balance_multi_cvx Demo.zero_x Demo.hh1 Demo.A2 Demo.B2 Demo.w2 Demo.mu2
     Demo.meta_mu2
     = Some (Returned ([[0]; [1]]%Q, Some [[0; 0]]%Q, Some [[0]]%Q)) /\
   with_added_rows [0]%Q 1 [[1]]%Q [[0]; [1]]%Q) /\
  (balance_multi_cvx Demo.fruitless Demo.hh_table Demo.A Demo.B Demo.w
     Demo.mu Demo.meta_mu
     = Some (Returned ([[3 # 3; 3 # 3]]%Q, None, None)) /\
   [[3 # 3; 3 # 3]]%Q = rescaled_prior Demo.A Demo.w Demo.mu).
Proof.
  assert (forall c p v,
     Demo.zero_x c p = Solved v -> np_any_value (x_value v) = false) as Hz.
  { intros c p v [= <-]. reflexivity. }
  assert (forall c p v,
     Demo.fruitless c p = Solved v -> np_any_value (x_value v) = false) as H.
  { intros c p v [= <-]. reflexivity. }
  assert (balance_multi_cvx Demo.zero_x Demo.hh1 Demo.A2 Demo.B2 Demo.w2
    Demo.mu2 Demo.meta_mu2
    = Some (Returned ([[0]; [1]]%Q, Some [[0; 0]]%Q, Some [[0]]%Q)))
    as Hzrun by reflexivity.
  assert (balance_multi_cvx Demo.fruitless Demo.hh_table Demo.A Demo.B Demo.w
    Demo.mu Demo.meta_mu
    = Some (Returned ([[3 # 3; 3 # 3]]%Q, None, None)))
    as Hrun by reflexivity.
  split; (split; [assumption|]).
  - exact (proj1 (proj2 (fallback_is_rescaled_prior Demo.zero_x Demo.hh1
                           Demo.A2 Demo.B2 Demo.w2 Demo.mu2 Demo.meta_mu2
                           _ _ _ Hz Hzrun))).
  - exact (proj1 (fallback_is_rescaled_prior Demo.fruitless Demo.hh_table
                    Demo.A Demo.B Demo.w Demo.mu Demo.meta_mu _ None None
                    H Hrun) eq_refl).
Defined.

(** C3 (as stated, refuted): with one zero-marginal tract and a solver that
    returns an all-zero [x], the call returns a matrix of two rows, the
    zero row of the removed tract and the prior of the other, while the
    rescaled prior has the one row. *)
Lemma fallback_counterexample :
  (forall c p v,
     Demo.zero_x c p = Solved v -> np_any_value (x_value v) = false) /\
  balance_multi_cvx Demo.zero_x Demo.hh1 Demo.A2 Demo.B2 Demo.w2 Demo.mu2
    Demo.meta_mu2
    = Some (Returned ([[0]; [1]]%Q, Some [[0; 0]]%Q, Some [[0]]%Q)) /\
  rescaled_prior Demo.A2 Demo.w2 Demo.mu2 = [[1]]%Q /\
  [[0]; [1]]%Q <> rescaled_prior Demo.A2 Demo.w2 Demo.mu2.
Proof.
  split; [|split; [|split]].
  - intros c p v [= <-]. reflexivity.
  - reflexivity.
  - reflexivity.
  - discriminate.
Qed.

(** C4 (the code departs from the claim): of three tracts the first two
    have zero marginals.  [np.insert] reads the recorded indices [0; 1] as
    positions of the one-row solution, so the zero rows land at positions 0
    and 2: the row returned for tract 1, a zero-marginal tract, is the
    solved tract's weights, and so is its column of relaxation factors. *)
Theorem zero_tracts_misplaced :
  zero_marginals Demo.A3 = [0; 1] /\
  exists weights zs qs,
    balance_multi_cvx Demo.steady Demo.hh_table Demo.A3 Demo.B3 Demo.w3
      Demo.mu3 Demo.meta_mu = Some (Returned (weights, Some zs, qs)) /\
    weights = [[0; 0]; [1; 1]; [0; 0]]%Q /\
    zs = [[0; 1; 0]; [0; 1; 0]]%Q.
Proof.
  split; [reflexivity|].
  eexists _, _, _. split; [vm_compute; reflexivity|].
  split; reflexivity.
Qed.

(** The same slip on a shape: the zero row has one entry per control, the
    weight matrix one column per sample; with three samples and two
    controls the re-insertion raises [ValueError]. *)
Lemma zero_row_width_mismatch (arr : matrix) :
  np_insert_rows 3 arr [0] (replicate 2 0%Q) = Raised ValueError.
Proof. reflexivity. Qed.

(** With a single zero-marginal tract and conforming widths the zero row
    does land at the recorded position. *)
Lemma insert_from_single {T} (v : T) (arr : list T) (p i : nat) :
  i <= length arr ->
  insert_from p [p + i] v arr !! i = Some v.
Proof.
  revert p i. induction arr as [|a arr IH]; intros p i Hi; simpl in *.
  - assert (i = 0) as -> by lia. rewrite Nat.add_0_r.
    rewrite filter_cons_True by reflexivity. reflexivity.
  - destruct i as [|i].
    + rewrite Nat.add_0_r. rewrite filter_cons_True by reflexivity.
      reflexivity.
    + rewrite filter_cons_False by lia. simpl.
      replace (p + S i) with (S p + i) by lia. apply IH. lia.
Qed.

(** C9: after the zero-marginal tracts are removed, the prior of tract [i]
    and sample [j] is rescaled to [w[i,j] * sum(A[i,:]) / sum(A)]. *)
Theorem rescaled_prior_entry (A w mu : matrix) (i j : nat)
    (ar wr : vector) (v : Q) :
  let A' := (remove_tracts (zero_marginals A) A w mu).1.1 in
  let w' := (remove_tracts (zero_marginals A) A w mu).1.2 in
  ~ np_sum_all A' == 0 ->
  A' !! i = Some ar ->
  w' !! i = Some wr ->
  wr !! j = Some v ->
  exists r,
    rescaled_prior A w mu !! i ≫= (.!! j) = Some r /\
    r == v * np_sum ar / np_sum_all A'.
Proof.
  intros A' w' Hsum HA Hw Hv.
  exists (v * (np_sum ar / np_sum_all A'))%Q. split.
  - unfold rescaled_prior. subst A' w'.
    destruct (remove_tracts (zero_marginals A) A w mu) as [[A' w'] mu'].
    simpl in *. unfold rescale, tract_shares, np_sum_rows.
    rewrite lookup_zip_with, Hw. simpl.
    rewrite !map_fmap, !list_lookup_fmap, HA. simpl.
    rewrite map_fmap, list_lookup_fmap, Hv. reflexivity.
  - field. exact Hsum.
Qed.

Lemma rescaled_prior_entry_witness :
  exists r,
    rescaled_prior Demo.A3 Demo.w3 Demo.mu3 !! 0 ≫= (.!! 1) = Some r /\
    r == 1 * np_sum [1; 1]%Q / np_sum_all [[1; 1]]%Q.
Proof.
  apply (rescaled_prior_entry Demo.A3 Demo.w3 Demo.mu3 0 1 [1; 1]%Q
           [1; 1]%Q 1%Q).
  - vm_compute. discriminate.
  - reflexivity.
  - reflexivity.
  - reflexivity.
Defined.

(** ** Claims about balance_newton *)

(** *** Floats *)

Ltac case_Qeq :=
  match goal with
  | |- context [Qeq_bool ?a ?b] =>
      let E := fresh "E" in
      destruct (Qeq_bool a b) eqn:E;
      [apply Qeq_bool_iff in E | apply Qeq_bool_neq in E]
  end.

#[global] Instance Qlt_bool_proper : Proper (Qeq ==> Qeq ==> eq) Qlt_bool.
Proof. intros a a' Ha b b' Hb. unfold Qlt_bool. rewrite Ha, Hb. reflexivity. Qed.

#[global] Instance feq_equivalence : Equivalence feq.
Proof.
  split.
  - intros [p| | |]; simpl; auto. reflexivity.
  - intros [p| | |] [q| | |]; simpl; auto. intros H. symmetry. exact H.
  - intros [p| | |] [q| | |] [r| | |]; simpl; auto; try contradiction.
    intros H1 H2. rewrite H1. exact H2.
Qed.

#[global] Instance Fin_proper : Proper (Qeq ==> feq) Fin.
Proof. intros p q H. exact H. Qed.

#[global] Instance fopp_proper : Proper (feq ==> feq) fopp.
Proof.
  intros [p| | |] [q| | |]; simpl; auto. intros H. rewrite H. reflexivity.
Qed.

#[global] Instance fadd_proper : Proper (feq ==> feq ==> feq) fadd.
Proof.
  intros [p| | |] [p'| | |] Hp [q| | |] [q'| | |] Hq; simpl in *;
    auto; try contradiction.
  rewrite Hp, Hq. reflexivity.
Qed.

#[global] Instance fsub_proper : Proper (feq ==> feq ==> feq) fsub.
Proof. intros a a' Ha b b' Hb. unfold fsub. rewrite Ha, Hb. reflexivity. Qed.

#[global] Instance inf_times_proper b : Proper (Qeq ==> feq) (inf_times b).
Proof.
  intros p q H. unfold inf_times.
  assert (Qeq_bool p 0 = Qeq_bool q 0) as -> by (rewrite H; reflexivity).
  assert (Qlt_bool 0 p = Qlt_bool 0 q) as -> by (rewrite H; reflexivity).
  reflexivity.
Qed.

#[global] Instance fmul_proper : Proper (feq ==> feq ==> feq) fmul.
Proof.
  intros [p| | |] [p'| | |] Hp [q| | |] [q'| | |] Hq; simpl in *;
    auto; try contradiction;
    try (apply inf_times_proper; assumption).
  rewrite Hp, Hq. reflexivity.
Qed.

#[global] Instance fdiv_proper : Proper (feq ==> feq ==> feq) fdiv.
Proof.
  intros [p| | |] [p'| | |] Hp [q| | |] [q'| | |] Hq; simpl in *;
    auto; try contradiction; try reflexivity;
    try (rewrite Hq; reflexivity).
  assert (Qeq_bool q 0 = Qeq_bool q' 0) as -> by (rewrite Hq; reflexivity).
  assert (Qeq_bool p 0 = Qeq_bool p' 0) as -> by (rewrite Hp; reflexivity).
  assert (Qlt_bool 0 p = Qlt_bool 0 p') as -> by (rewrite Hp; reflexivity).
  destruct (Qeq_bool q' 0).
  - destruct (Qeq_bool p' 0); [|destruct (Qlt_bool 0 p')]; reflexivity.
  - simpl. rewrite Hp, Hq. reflexivity.
Qed.

Lemma reciprocal_sign (m : Q) :
  ~ m == 0 ->
  Qeq_bool (1 / m) 0 = false /\ Qlt_bool 0 (1 / m) = negb (Qlt_bool m 0).
Proof.
  intros Hm.
  assert (m * (1 / m) == 1) as Hinv by (field; exact Hm).
  split.
  - destruct (Qeq_bool (1 / m) 0) eqn:E; [|reflexivity].
    apply Qeq_bool_iff in E. rewrite E in Hinv. lra.
  - destruct (Qlt_bool m 0) eqn:E; simpl.
    + apply Qlt_bool_true in E. apply Qlt_bool_false. nra.
    + apply Qlt_bool_false in E. apply Qlt_bool_true. nra.
Qed.

(** Multiplying by the reciprocal of a finite number is dividing by it. *)
Lemma fmul_reciprocal (t : float) (m : Q) :
  feq (t * (Fin 1 / Fin m))%fl (t / Fin m)%fl.
Proof.
  destruct t as [p| | |]; simpl; auto.
  - case_Qeq.
    + simpl. unfold inf_times.
      destruct (Qeq_bool p 0); [reflexivity|].
      destruct (Qlt_bool 0 p); reflexivity.
    + simpl. unfold Qdiv. ring.
  - case_Qeq; simpl.
    + assert (Qlt_bool m 0 = false) as ->; [|reflexivity].
      apply Qlt_bool_false. lra.
    + unfold inf_times.
      destruct (reciprocal_sign m E) as [-> ->].
      destruct (Qlt_bool m 0); reflexivity.
  - case_Qeq; simpl.
    + assert (Qlt_bool m 0 = false) as ->; [|reflexivity].
      apply Qlt_bool_false. lra.
    + unfold inf_times.
      destruct (reciprocal_sign m E) as [-> ->].
      destruct (Qlt_bool m 0); reflexivity.
Qed.

Lemma fdiv_finite (p q : Q) : ~ q == 0 -> (Fin p / Fin q)%fl = Fin (p / q).
Proof.
  intros Hq. simpl.
  destruct (Qeq_bool q 0) eqn:E; [|reflexivity].
  apply Qeq_bool_iff in E. contradiction.
Qed.

Lemma fabs_not_negative (a : float) : not_negative (fabs a).
Proof. destruct a; simpl; auto. apply Qabs_nonneg. Qed.

Lemma fadd_not_negative (a b : float) :
  not_negative a -> not_negative b -> not_negative (a + b).
Proof. destruct a, b; simpl; auto. intros. lra. Qed.

Lemma weight_diff_not_negative (cur prev : list float) :
  not_negative (weight_diff cur prev).
Proof.
  unfold weight_diff.
  assert (not_negative
            (fsum (zip_with (fun c p => fabs (c - p)) cur prev))) as Hsum.
  { generalize prev. induction cur as [|c cur IH]; intros [|p prev'];
      simpl; try lra.
    apply fadd_not_negative; [apply fabs_not_negative | apply IH]. }
  assert (0 <= inject_Z (Z.of_nat (length cur)))%Q as Hn.
  { change 0%Q with (inject_Z 0). rewrite <- Zle_Qle. lia. }
  destruct (fsum _) as [q| | |]; simpl in *; auto; try contradiction.
  - case_Qeq.
    + case_Qeq; [exact I|].
      assert (Qlt_bool 0 q = true) as ->; [|exact I].
      apply Qlt_bool_true. lra.
    + simpl. apply Qle_shift_div_l; lra.
  - assert (Qlt_bool (inject_Z (Z.of_nat (length cur))) 0 = false) as ->;
      [|exact I].
    apply Qlt_bool_false, Hn.
Qed.

Lemma converged_spec (cur prev : list float) :
  converged cur prev = true <->
  exists d, weight_diff cur prev = Fin d /\ (d <= MAX_GAP)%Q.
Proof.
  unfold converged.
  pose proof (weight_diff_not_negative cur prev) as Hnn.
  destruct (weight_diff cur prev) as [d| | |]; simpl in *.
  - rewrite Qle_bool_iff. split.
    + intros H. exists d. auto.
    + intros (d' & [= <-] & H). exact H.
  - split; [discriminate | intros (d & H & _); discriminate].
  - contradiction.
  - split; [discriminate | intros (d & H & _); discriminate].
Qed.

Lemma foldl_invariant {S T} (P : S -> Prop) (f : S -> T -> S) (l : list T) :
  (forall s t, P s -> P (f s t)) -> forall s, P s -> P (foldl f s l).
Proof.
  intros Hf. induction l as [|t l IH]; intros s Hs; simpl; auto.
Qed.

Lemma ndenumerate_row (row : vector) :
  ndenumerate [row] = imap (fun k v => (0, k, v)) row.
Proof. unfold ndenumerate. simpl. apply app_nil_r. Qed.

(** The clamp of lines 239-244 between two numbers [lo <= hi]: a NaN
    stays, everything else ends between the two. *)
Lemma py_clamp (c : float) (lo hi : Q) :
  (lo <= hi)%Q ->
  (c = NaN /\ py_min (py_max c (Fin lo)) (Fin hi) = NaN) \/
  (c <> NaN /\
   exists q, py_min (py_max c (Fin lo)) (Fin hi) = Fin q /\
             (lo <= q <= hi)%Q).
Proof.
  intros Hlh. destruct c as [p| | |]; [right|right|right|left];
    try (split; [discriminate|]); [| | |split; reflexivity].
  - unfold py_max. simpl. case_Qlt; unfold py_min; simpl; case_Qlt;
      eexists; (split; [reflexivity|]); lra.
  - unfold py_max, py_min. simpl. exists hi. split; [reflexivity | lra].
  - unfold py_max. simpl. unfold py_min. simpl. case_Qlt.
    + exists hi. split; [reflexivity | lra].
    + exists lo. split; [reflexivity | lra].
Qed.

Section NewtonFacts.

Variable power : float -> float -> float.
Variables hh_table A mu : matrix.
Variable w : vector.

Local Abbreviation upd := (update_sample power hh_table w).
Local Abbreviation step := (control_step power hh_table A mu w).
Local Abbreviation sweep1 := (sweep power hh_table A mu w).
Local Abbreviation loop := (sweeps power hh_table A mu w).
Local Abbreviation after := (after_sweeps power hh_table A mu w).
Local Abbreviation run := (newton_run power hh_table A mu w).
Local Abbreviation newton := (balance_newton power hh_table A mu w).
Local Abbreviation stops := (stops_at power hh_table A mu w).

Lemma after_sweeps_S (j : nat) :
  after (S j)
  = (cur_w (after j).2, sweep1 (cur_w (after j).2) (after j).2).
Proof. simpl. destruct (after j). reflexivity. Qed.

Lemma sweeps_from (its j : nat) :
  (forall i, 1 <= i <= j -> stops i = false) ->
  exists n,
    loop its (cur_w (after j).2) (after j).2 j
      = ((after n).2, n) /\
    j <= n <= j + its /\
    (n < j + its -> stops n = true) /\
    (forall i, 1 <= i < n -> stops i = false).
Proof.
  revert j. induction its as [|its IH]; intros j Hj.
  - exists j. simpl. repeat split; try lia. intros i Hi. apply Hj. lia.
  - simpl.
    destruct (converged _ _) eqn:E.
    + exists (S j). rewrite after_sweeps_S. simpl.
      repeat split; try lia.
      * intros _. unfold stops. rewrite after_sweeps_S. exact E.
      * intros i Hi. apply Hj. lia.
    + destruct (IH (S j)) as (n & Hrun & Hn & Hstop & Hbefore).
      { intros i Hi. destruct (decide (i = S j)) as [->|Hne].
        - unfold stops. rewrite after_sweeps_S. exact E.
        - apply Hj. lia. }
      exists n. rewrite after_sweeps_S in Hrun. simpl in Hrun.
      rewrite Hrun. repeat split; try lia; auto.
      intros Hlt. apply Hstop. lia.
Qed.

(** C5: the Newton-Raphson balancer terminates: it runs [n] sweeps with
    [n <= MAX_ITERATIONS = 10000] and returns what the [n]-th sweep left;
    when it stops before the cap, the mean absolute weight change of sweep
    [n] is a number [<= MAX_GAP = 1e-7]; no earlier sweep met that test. *)
Theorem newton_terminates :
  Z.of_nat MAX_ITERATIONS = 10000%Z /\
  MAX_GAP = (1 # 10000000)%Q /\
  exists n,
    n <= MAX_ITERATIONS /\
    newton_run power hh_table A mu w
      = ((after_sweeps power hh_table A mu w n).2, n) /\
    balance_newton power hh_table A mu w
      = (cur_w (after_sweeps power hh_table A mu w n).2,
         z (after_sweeps power hh_table A mu w n).2) /\
    (n < MAX_ITERATIONS ->
     exists d,
       weight_diff (cur_w (after_sweeps power hh_table A mu w n).2)
         (after_sweeps power hh_table A mu w n).1 = Fin d /\
       (d <= MAX_GAP)%Q) /\
    (forall i, 1 <= i < n ->
     ~ exists d,
         weight_diff (cur_w (after_sweeps power hh_table A mu w i).2)
           (after_sweeps power hh_table A mu w i).1 = Fin d /\
         (d <= MAX_GAP)%Q).
Proof.
  split; [reflexivity|]. split; [reflexivity|].
  destruct (sweeps_from MAX_ITERATIONS 0) as (n & Hrun & Hn & Hstop & Hbefore).
  { intros i Hi. lia. }
  change (loop MAX_ITERATIONS (cur_w (after 0).2) (after 0).2 0)
    with run in Hrun.
  exists n. split; [lia|]. split; [exact Hrun|]. split; [|split].
  - unfold balance_newton. rewrite Hrun. reflexivity.
  - intros Hlt. apply converged_spec. apply Hstop. lia.
  - intros i Hi Hc. apply converged_spec in Hc.
    specialize (Hbefore i Hi). unfold stops_at in Hbefore. congruence.
Qed.

(** *** One sample in one control step *)

Lemma update_sample_length prev a k cur s :
  length (upd prev a k cur s) = length cur.
Proof.
  unfold update_sample. destruct (Qlt_bool _ _); [|reflexivity].
  apply length_insert.
Qed.

Lemma update_sample_other prev a k cur s i :
  s <> i -> upd prev a k cur s !! i = cur !! i.
Proof.
  intros Hne. unfold update_sample. destruct (Qlt_bool _ _); [|reflexivity].
  apply list_lookup_insert_ne, Hne.
Qed.

Lemma update_sample_at prev a k cur s c :
  cur !! s = Some c ->
  upd prev a k cur s !! s
  = Some (if Qlt_bool 0 (item2 hh_table s k)
          then py_min
                 (py_max (fitem prev s * power a (Fin (item2 hh_table s k)))%fl
                    (Fin (item (sample_weight_lower w) s)))
                 (Fin (item (sample_weight_upper w) s))
          else c).
Proof.
  intros Hc. unfold update_sample. destruct (Qlt_bool _ _); [|exact Hc].
  apply list_lookup_insert_eq. eapply lookup_lt_Some, Hc.
Qed.

Lemma fold_update_lookup prev a k (l : list nat) cur i c :
  NoDup l ->
  cur !! i = Some c ->
  foldl (upd prev a k) cur l !! i
  = Some (if decide (i ∈ l)
          then if Qlt_bool 0 (item2 hh_table i k)
               then py_min
                      (py_max
                         (fitem prev i * power a (Fin (item2 hh_table i k)))%fl
                         (Fin (item (sample_weight_lower w) i)))
                      (Fin (item (sample_weight_upper w) i))
               else c
          else c).
Proof.
  intros Hnd. revert cur c.
  induction Hnd as [|s l Hs Hnd IH]; intros cur c Hc; cbn [foldl].
  - rewrite decide_False by apply not_elem_of_nil. exact Hc.
  - destruct (decide (s = i)) as [->|Hne].
    + rewrite (IH _ _ (update_sample_at prev a k cur i c Hc)).
      rewrite decide_False by exact Hs.
      rewrite decide_True by apply list_elem_of_here. reflexivity.
    + rewrite (IH _ c) by (rewrite update_sample_other; assumption).
      destruct (decide (i ∈ l)) as [Hin|Hout].
      * rewrite decide_True by (apply list_elem_of_further, Hin). reflexivity.
      * rewrite decide_False; [reflexivity|].
        rewrite elem_of_cons. intros [->|H]; [congruence | contradiction].
Qed.

Lemma stored_value (i : nat) (wi : Q) (c : float) :
  w !! i = Some wi ->
  py_min (py_max c (Fin (item (sample_weight_lower w) i)))
    (Fin (item (sample_weight_upper w) i))
  = py_min (py_max c (Fin (wi / 5))) (Fin (wi * 5)).
Proof.
  intros Hw. unfold sample_weight_lower, sample_weight_upper, item.
  rewrite !map_fmap, !list_lookup_fmap, Hw. reflexivity.
Qed.

(** *** Shapes *)

Lemma control_step_lengths prev st e :
  length (alpha (step prev st e)) = length (alpha st) /\
  length (z (step prev st e)) = length (z st) /\
  length (cur_w (step prev st e)) = length (cur_w st).
Proof.
  destruct e as [[t k] m]. cbn [control_step alpha z cur_w].
  rewrite !length_insert. repeat split.
  apply (foldl_invariant (fun c => length c = length (cur_w st)));
    [|reflexivity].
  intros c s Hc. rewrite update_sample_length. exact Hc.
Qed.

Lemma sweep_lengths prev st :
  length (alpha (sweep1 prev st)) = length (alpha st) /\
  length (z (sweep1 prev st)) = length (z st) /\
  length (cur_w (sweep1 prev st)) = length (cur_w st).
Proof.
  unfold sweep.
  apply (foldl_invariant (fun s =>
           length (alpha s) = length (alpha st) /\
           length (z s) = length (z st) /\
           length (cur_w s) = length (cur_w st))); [|auto].
  intros s e (Ha & Hz & Hc).
  destruct (control_step_lengths prev s e) as (Ha' & Hz' & Hc').
  repeat split; congruence.
Qed.

Lemma sweeps_lengths its prev st done :
  length (alpha (loop its prev st done).1) = length (alpha st) /\
  length (z (loop its prev st done).1) = length (z st) /\
  length (cur_w (loop its prev st done).1) = length (cur_w st).
Proof.
  revert prev st done.
  induction its as [|its IH]; intros prev st done; cbn [sweeps]; [auto|].
  destruct (sweep_lengths prev st) as (Ha & Hz & Hc).
  destruct (converged _ _); cbn [fst].
  - auto.
  - destruct (IH (cur_w (sweep1 prev st)) (sweep1 prev st) (S done))
      as (Ha' & Hz' & Hc').
    repeat split; congruence.
Qed.

Lemma newton_lengths :
  length (balance_newton power hh_table A mu w).1 = length w /\
  length (balance_newton power hh_table A mu w).2 = ncols hh_table.
Proof.
  unfold balance_newton, newton_run. cbn [fst snd].
  destruct (sweeps_lengths MAX_ITERATIONS (map Fin w)
              (initial_state hh_table w) 0) as (_ & Hz & Hc).
  rewrite Hz, Hc. cbn [initial_state z cur_w].
  rewrite length_replicate, length_map. auto.
Qed.

(** *** The per-sample bounds *)

Lemma sweeps_index_invariant (P : option float -> Prop) (i : nat) :
  (forall prev a k cur s, P (cur !! i) -> P (upd prev a k cur s !! i)) ->
  forall its prev st done,
    P (cur_w st !! i) -> P (cur_w (loop its prev st done).1 !! i).
Proof.
  intros Hupd.
  assert (forall prev st e, P (cur_w st !! i) -> P (cur_w (step prev st e) !! i))
    as Hstep.
  { intros prev st [[t k] m] H. cbn [control_step cur_w].
    apply (foldl_invariant (fun c => P (c !! i))); [|exact H].
    intros c s. apply Hupd. }
  assert (forall prev st, P (cur_w st !! i) -> P (cur_w (sweep1 prev st) !! i))
    as Hsweep.
  { intros prev st H. unfold sweep.
    apply (foldl_invariant (fun s => P (cur_w s !! i))); [|exact H].
    intros s e. apply Hstep. }
  induction its as [|its IH]; intros prev st done H; cbn [sweeps];
    [exact H|].
  destruct (converged _ _); cbn [fst]; auto.
Qed.

Lemma initial_weight (i : nat) :
  cur_w (initial_state hh_table w) !! i = Fin <$> w !! i.
Proof. cbn [initial_state cur_w]. rewrite map_fmap. apply list_lookup_fmap. Qed.

Lemma newton_weight_bounds (i : nat) (wi : Q) :
  w !! i = Some wi ->
  (0 <= wi)%Q ->
  exists r,
    (balance_newton power hh_table A mu w).1 !! i = Some r /\
    (r = NaN \/ bounded_by wi r).
Proof.
  intros Hw Hpos.
  assert (exists r, (balance_newton power hh_table A mu w).1 !! i = Some r)
    as [r Hr].
  { apply lookup_lt_is_Some. rewrite (proj1 newton_lengths).
    eapply lookup_lt_Some, Hw. }
  exists r. split; [exact Hr|].
  revert r Hr. unfold balance_newton, newton_run. cbn [fst].
  apply (sweeps_index_invariant
           (fun o => forall r, o = Some r -> r = NaN \/ bounded_by wi r)).
  - intros prev a k cur s H r.
    destruct (decide (s = i)) as [->|Hne].
    + unfold update_sample. destruct (Qlt_bool _ _); [|apply H].
      destruct (decide (i < length cur)) as [Hlt|Hge].
      * rewrite list_lookup_insert_eq by exact Hlt. intros [= <-].
        rewrite (stored_value i wi _ Hw).
        destruct (py_clamp
                    (fitem prev i * power a (Fin (item2 hh_table i k)))%fl
                    (wi / 5) (wi * 5)) as [[_ ->]|[_ Hq]].
        { apply Qle_shift_div_r; lra. }
        { left. reflexivity. }
        { right. exact Hq. }
      * rewrite list_insert_ge by lia. apply H.
    + rewrite update_sample_other by exact Hne. apply H.
  - rewrite initial_weight, Hw. intros r' [= <-]. right.
    exists wi. split; [reflexivity|].
    split; [apply Qle_shift_div_r; lra | lra].
Qed.

(** C6 (amended): with strictly positive initial weights [w], every weight
    the Newton-Raphson balancer returns is NaN or a number within the
    per-sample bounds: [w[i] / 5 <= result[i] <= w[i] * 5]. *)
Theorem newton_weights_within_bounds :
  Forall (fun v => (0 < v)%Q) w ->
  forall i wi,
    w !! i = Some wi ->
    exists r,
      (balance_newton power hh_table A mu w).1 !! i = Some r /\
      (r = NaN \/ exists q, r = Fin q /\ (wi / 5 <= q <= wi * 5)%Q).
Proof.
  intros Hpos i wi Hw.
  apply newton_weight_bounds; [exact Hw|].
  rewrite Forall_lookup in Hpos. specialize (Hpos i wi Hw). lra.
Qed.

(** *** Samples outside every control *)

Lemma update_sample_frame prev a k cur s i row :
  hh_table !! i = Some row ->
  Forall (fun h => h == 0) row ->
  upd prev a k cur s !! i = cur !! i.
Proof.
  intros Hrow Hzero. unfold update_sample.
  destruct (decide (s = i)) as [->|Hne].
  - assert (Qlt_bool 0 (item2 hh_table i k) = false) as ->; [|reflexivity].
    apply Qlt_bool_false. unfold item2, item. rewrite Hrow. simpl.
    destruct (row !! k) as [h|] eqn:Hk; simpl; [|lra].
    rewrite Forall_lookup in Hzero. rewrite (Hzero k h Hk). lra.
  - destruct (Qlt_bool 0 (item2 hh_table s k)); [|reflexivity].
    apply list_lookup_insert_ne, Hne.
Qed.

(** C10: a sample whose row of the household table is entirely zero keeps
    its initial weight: the weight the Newton-Raphson balancer returns for
    it is [w[i]] itself. *)
Theorem newton_zero_row_untouched (i : nat) (row : vector) :
  hh_table !! i = Some row ->
  Forall (fun h => h == 0) row ->
  (balance_newton power hh_table A mu w).1 !! i = Fin <$> w !! i.
Proof.
  intros Hrow Hzero. unfold balance_newton, newton_run. cbn [fst].
  apply (sweeps_index_invariant (fun o => o = Fin <$> w !! i)).
  - intros prev a k cur s H. rewrite <- H.
    eapply update_sample_frame; eassumption.
  - apply initial_weight.
Qed.

(** *** One control step *)

(** C7: in the step for control [k] of a one-row [A], with
    [x = prev_w . H[:,k]] and [y = prev_w . H[:,k]^2]: [alpha[k]] becomes
    [1 - (x - A[k] z[k]) / (y + A[k] z[k] / mu[k])] if [x > 0] and
    [A[k] > 0], [0.01] if [x > 0] and [A[k] = 0], and [1] if [x <= 0] (and
    whenever [x > 0] is false); then [z[k]] becomes
    [z[k] * (1 / alpha[k]) ^ (1 / mu[k])]. *)
Theorem newton_control_update (prev_w : list float) (st : sweep_state)
    (row : vector) (k : nat) (ak : Q) (zk : float) :
  A = [row] ->
  row !! k = Some ak ->
  z st !! k = Some zk ->
  k < length (alpha st) ->
  let x := fdot prev_w (column hh_table k) in
  let y := fdot prev_w (map (fun h => (h * h)%Q) (column hh_table k)) in
  let m := Fin (item2 mu 0 k) in
  let st' := control_step power hh_table A mu w prev_w st (0, k, ak) in
  ndenumerate A !! k = Some (0, k, ak) /\
  exists a,
    alpha st' !! k = Some a /\
    ((Fin 0 <? x)%fl = true -> (0 < ak)%Q ->
     feq a (Fin 1 - (x - Fin ak * zk) / (y + Fin ak * zk / m))%fl) /\
    ((Fin 0 <? x)%fl = true -> ak == 0 -> a = Fin (1 # 100)) /\
    ((x <=? Fin 0)%fl = true -> a = Fin 1) /\
    ((Fin 0 <? x)%fl = false -> a = Fin 1) /\
    z st' !! k = Some (zk * power (Fin 1 / a) (Fin 1 / m))%fl.
Proof.
  intros HA Hrow Hz Hk x y m st'. split.
  { rewrite HA, ndenumerate_row, list_lookup_imap, Hrow. reflexivity. }
  exists (balancing_factor hh_table A mu prev_w (z st) k ak).
  assert (alpha st' !! k
          = Some (balancing_factor hh_table A mu prev_w (z st) k ak)) as Ha.
  { subst st'. simpl. apply list_lookup_insert_eq, Hk. }
  split; [exact Ha|].
  assert (item2 A 0 k = ak) as HAk.
  { rewrite HA. unfold item2, item. simpl. rewrite Hrow. reflexivity. }
  assert (fitem (z st) k = zk) as Hzk.
  { unfold fitem. rewrite Hz. reflexivity. }
  assert ((Fin 0 <? x)%fl = false -> 
          balancing_factor hh_table A mu prev_w (z st) k ak = Fin 1) as Hone.
  { intros Hx. unfold balancing_factor. fold x. rewrite Hx. reflexivity. }
  split; [|split; [|split; [|split]]].
  - intros Hx Hak. unfold balancing_factor. fold x y. subst m.
    rewrite HAk, Hzk.
    apply Qlt_bool_true in Hak. rewrite Hx, Hak.
    rewrite (fmul_reciprocal (Fin ak * zk) (item2 mu 0 k)).
    reflexivity.
  - intros Hx Hak. unfold balancing_factor. fold x. rewrite Hx.
    assert (Qlt_bool 0 ak = false) as ->; [|reflexivity].
    apply Qlt_bool_false. lra.
  - intros Hx. apply Hone.
    destruct x as [q| | |]; simpl in *; try discriminate; try reflexivity.
    apply Qlt_bool_false. apply Qle_bool_iff in Hx. exact Hx.
  - exact Hone.
  - subst st'. simpl.
    rewrite list_lookup_insert_eq by (eapply lookup_lt_Some, Hz).
    unfold fitem at 2. rewrite list_lookup_insert_eq by exact Hk. simpl.
    fold m. rewrite Hzk. reflexivity.
Qed.

(** X10: the weight update of one control step overwrites, it does not
    accumulate: a sample with a positive entry in column [k] gets
    [prev_w[s] * alpha[k] ** H[s,k]], passed through [max] with [w[s]/5]
    and [min] with [w[s]*5], whatever weight an earlier control of the
    sweep had given it, and every other sample keeps its current weight. *)
Theorem control_step_weights (prev_w : list float) (st : sweep_state)
    (t k : nat) (marginal : Q) (s : nat) (c : float) :
  cur_w st !! s = Some c ->
  let st' := control_step power hh_table A mu w prev_w st (t, k, marginal) in
  cur_w st' !! s
  = Some (if Qlt_bool 0 (item2 hh_table s k)
          then py_min
                 (py_max (fitem prev_w s
                          * power (fitem (alpha st') k)
                              (Fin (item2 hh_table s k)))%fl
                    (Fin (item (sample_weight_lower w) s)))
                 (Fin (item (sample_weight_upper w) s))
          else c).
Proof.
  intros Hc st'. subst st'. cbn [control_step cur_w alpha].
  rewrite (fold_update_lookup _ _ _ _ _ s c) by (apply NoDup_seq || exact Hc).
  destruct (decide (s ∈ seq 0 (length hh_table))) as [Hin|Hout];
    [reflexivity|].
  assert (Qlt_bool 0 (item2 hh_table s k) = false) as ->; [|reflexivity].
  apply Qlt_bool_false. unfold item2.
  rewrite elem_of_seq in Hout.
  rewrite (lookup_ge_None_2 hh_table s) by lia. simpl. unfold item.
  rewrite lookup_nil. simpl. lra.
Qed.

(** X11: the arrays the Newton-Raphson balancer returns have the shapes
    of its inputs: one weight per entry of [w], one relaxation factor per
    column of the household table, also when the loop stops at the cap. *)
Theorem newton_shapes :
  length (balance_newton power hh_table A mu w).1 = length w /\
  length (balance_newton power hh_table A mu w).2 = ncols hh_table /\
  (forall i, is_Some ((balance_newton power hh_table A mu w).1 !! i)
             <-> is_Some (w !! i)).
Proof.
  destruct newton_lengths as [Hw Hz]. split; [exact Hw|]. split; [exact Hz|].
  intros i. rewrite !lookup_lt_is_Some, Hw. reflexivity.
Qed.

(** *** Weights that are not positive *)

(** X12: the clamp works sample by sample: a sample whose own initial
    weight is not negative ends as NaN or within [w[i]/5, w[i]*5],
    whatever the other initial weights are; in particular a weight of
    zero ends as zero or NaN. *)
Theorem newton_bounds_per_sample (i : nat) (wi : Q) :
  w !! i = Some wi ->
  (0 <= wi)%Q ->
  exists r,
    (balance_newton power hh_table A mu w).1 !! i = Some r /\
    (r = NaN \/ exists q, r = Fin q /\ (wi / 5 <= q <= wi * 5)%Q) /\
    (wi == 0 -> r = NaN \/ exists q, r = Fin q /\ q == 0).
Proof.
  intros Hw Hpos.
  destruct (newton_weight_bounds i wi Hw Hpos) as (r & Hr & Hb).
  exists r. split; [exact Hr|]. split; [exact Hb|].
  intros H0. destruct Hb as [->|(q & -> & Hq)]; [left; reflexivity|].
  right. exists q. split; [reflexivity|].
  rewrite H0 in Hq. assert (0 / 5 == 0)%Q by reflexivity. lra.
Qed.

(** X13: the clamp is not a bound for a negative initial weight: there
    the lower bound [w[i]/5] lies above the upper bound [w[i]*5], and a
    sample that takes part in a control is set to [w[i]*5] unless its
    product is NaN; so the weight returned is the initial one, five times
    it, or NaN. *)
Theorem newton_negative_weight (i : nat) (wi : Q) :
  w !! i = Some wi ->
  (wi < 0)%Q ->
  (balance_newton power hh_table A mu w).1 !! i = Some (Fin wi) \/
  (balance_newton power hh_table A mu w).1 !! i = Some (Fin (wi * 5)) \/
  (balance_newton power hh_table A mu w).1 !! i = Some NaN.
Proof.
  intros Hw Hneg. unfold balance_newton, newton_run. cbn [fst].
  apply (sweeps_index_invariant
           (fun o => o = Some (Fin wi) \/ o = Some (Fin (wi * 5))
                     \/ o = Some NaN)).
  - intros prev a k cur s H.
    destruct (decide (s = i)) as [->|Hne].
    + unfold update_sample. destruct (Qlt_bool _ _); [|exact H].
      destruct (decide (i < length cur)) as [Hlt|Hge].
      * rewrite list_lookup_insert_eq by exact Hlt. right.
        rewrite (stored_value i wi _ Hw).
        assert (wi * 5 < wi / 5)%Q as Hcross.
        { apply Qlt_shift_div_l; lra. }
        destruct (fitem prev i * power a (Fin (item2 hh_table i k)))%fl
          as [p| | |].
        -- left. f_equal. unfold py_max. simpl.
           case_Qlt; unfold py_min; simpl.
           ++ assert (Qlt_bool (wi * 5) (wi / 5) = true) as ->;
                [|reflexivity].
              apply Qlt_bool_true. exact Hcross.
           ++ assert (Qlt_bool (wi * 5) p = true) as ->; [|reflexivity].
              apply Qlt_bool_true. lra.
        -- left. reflexivity.
        -- left. f_equal. unfold py_max. simpl. unfold py_min. simpl.
           assert (Qlt_bool (wi * 5) (wi / 5) = true) as ->; [|reflexivity].
           apply Qlt_bool_true. exact Hcross.
        -- right. reflexivity.
      * rewrite list_insert_ge by lia. exact H.
    + rewrite update_sample_other by exact Hne. exact H.
  - left. rewrite initial_weight, Hw. reflexivity.
Qed.

(** *** Edge cases of the loop *)

Lemma sweeps_no_samples its prev st done :
  cur_w st = [] -> (loop its prev st done).2 = done + its.
Proof.
  revert prev st done.
  induction its as [|its IH]; intros prev st done Hst; cbn [sweeps snd];
    [lia|].
  assert (cur_w (sweep1 prev st) = []) as Hnil.
  { apply length_zero_iff_nil.
    rewrite (proj2 (proj2 (sweep_lengths prev st))), Hst. reflexivity. }
  assert (converged (cur_w (sweep1 prev st)) prev = false) as ->.
  { rewrite Hnil. reflexivity. }
  rewrite IH by exact Hnil. lia.
Qed.

(** X14: without samples the stopping test is never met (the mean of an
    empty array is NaN, and NaN is not [<= MAX_GAP]): the balancer runs
    all [MAX_ITERATIONS] sweeps before it returns the empty weights. *)
Theorem newton_no_samples :
  w = [] ->
  (newton_run power hh_table A mu w).2 = MAX_ITERATIONS /\
  (balance_newton power hh_table A mu w).1 = [].
Proof.
  intros Hw. split.
  - unfold newton_run. rewrite sweeps_no_samples; [reflexivity|].
    cbn [initial_state cur_w]. rewrite Hw. reflexivity.
  - apply length_zero_iff_nil. rewrite (proj1 newton_lengths), Hw.
    reflexivity.
Qed.

Lemma sum_abs_self (v : vector) :
  np_sum (zip_with (fun c p => Qabs (c - p)) v v) == 0.
Proof.
  induction v as [|c v IH]; [reflexivity|].
  unfold np_sum in *. cbn [zip_with foldr]. rewrite IH.
  assert (Qabs (c - c) == 0) as ->; [|reflexivity].
  rewrite (Qabs_wd (c - c) 0) by ring. reflexivity.
Qed.

Lemma fsum_abs_finite (u v : vector) :
  fsum (zip_with (fun c p => fabs (c - p)) (map Fin u) (map Fin v))
  = Fin (np_sum (zip_with (fun c p => Qabs (c - p)) u v)).
Proof.
  revert v. induction u as [|c u IH]; intros [|p v]; try reflexivity.
  cbn [map zip_with fsum foldr np_sum]. fold (fsum
    (zip_with (fun c p => fabs (c - p)) (map Fin u) (map Fin v))).
  rewrite IH. reflexivity.
Qed.

(** X15: without controls ([A] has no entry) and with at least one
    sample, the balancer makes a single sweep and returns the initial
    weights and relaxation factors of 1. *)
Theorem newton_no_controls :
  ndenumerate A = [] ->
  w <> [] ->
  newton_run power hh_table A mu w = (initial_state hh_table w, 1) /\
  balance_newton power hh_table A mu w
    = (map Fin w, replicate (ncols hh_table) (Fin 1)).
Proof.
  intros HA Hw.
  assert (newton_run power hh_table A mu w = (initial_state hh_table w, 1))
    as Hrun.
  { unfold newton_run.
    assert (exists n, MAX_ITERATIONS = S n) as [n ->].
    { exists (Nat.pred MAX_ITERATIONS). vm_compute. reflexivity. }
    cbn [sweeps]. unfold sweep. rewrite HA. cbn [foldl initial_state cur_w].
    assert (converged (map Fin w) (map Fin w) = true) as ->; [|reflexivity].
    unfold converged, weight_diff. rewrite fsum_abs_finite, length_map.
    destruct w as [|c v] eqn:Hv; [congruence|]. cbn [length].
    rewrite fdiv_finite.
    2:{ intros H0. unfold Qeq in H0. simpl in H0. lia. }
    cbn [fle]. apply Qle_bool_iff. rewrite sum_abs_self.
    unfold MAX_GAP, Qdiv. rewrite Qmult_0_l. discriminate. }
  split; [exact Hrun|].
  unfold balance_newton. rewrite Hrun. reflexivity.
Qed.

End NewtonFacts.

(** *** Tables of counts *)

Section NewtonCounts.

Variable power : float -> float -> float.
Hypothesis power_positive :
  forall a h : Q, (0 < a)%Q -> positive_number (power (Fin a) (Fin h)).

Variables hh_table mu : matrix.
Variables arow w : vector.

Hypothesis counts : entries (fun h => (h <= 0)%Q \/ (1 <= h)%Q) hh_table.
Hypothesis mu_positive :
  forall k, k < length arow -> (0 < item2 mu 0 k)%Q.
Hypothesis w_positive : Forall (fun v => (0 < v)%Q) w.
Hypothesis controls_in_table : length arow <= ncols hh_table.

Local Abbreviation upd := (update_sample power hh_table w).
Local Abbreviation step := (control_step power hh_table [arow] mu w).
Local Abbreviation sweep1 := (sweep power hh_table [arow] mu w).
Local Abbreviation loop := (sweeps power hh_table [arow] mu w).

Local Abbreviation all_bounded := (within_bounds w).

Lemma bounded_not_negative (ws : list float) :
  all_bounded ws -> Forall (fun r => exists p, r = Fin p /\ (0 <= p)%Q) ws.
Proof.
  intros [Hlen Hb]. apply Forall_lookup. intros i r Hr.
  destruct (w !! i) as [wi|] eqn:Hw.
  - destruct (Hb i wi r Hw Hr) as (q & -> & Hq). exists q.
    split; [reflexivity|].
    rewrite Forall_lookup in w_positive. specialize (w_positive i wi Hw).
    assert (0 <= wi / 5)%Q by (apply Qle_shift_div_l; lra). lra.
  - apply lookup_ge_None in Hw. apply lookup_lt_Some in Hr. lia.
Qed.

Lemma column_counts (k : nat) :
  Forall (fun h => (h <= h * h)%Q) (column hh_table k).
Proof.
  unfold column. rewrite map_fmap. apply Forall_fmap.
  eapply Forall_impl; [exact counts|].
  intros r Hr. simpl. unfold item.
  destruct (r !! k) as [h|] eqn:Hk; simpl; [|lra].
  rewrite Forall_lookup in Hr. destruct (Hr k h Hk); nra.
Qed.

Lemma fdot_counts (prev : list float) (col : vector) :
  Forall (fun r => exists p, r = Fin p /\ (0 <= p)%Q) prev ->
  Forall (fun h => (h <= h * h)%Q) col ->
  exists qx qy,
    fdot prev col = Fin qx /\
    fdot prev (map (fun h => (h * h)%Q) col) = Fin qy /\
    (qx <= qy)%Q.
Proof.
  intros Hprev. revert col.
  induction Hprev as [|r prev (p & -> & Hp) _ IH]; intros col Hcol.
  - exists 0%Q, 0%Q. repeat split; lra.
  - destruct Hcol as [|h col Hh Hcol].
    + exists 0%Q, 0%Q. repeat split; lra.
    + destruct (IH col Hcol) as (qx & qy & Hx & Hy & Hxy).
      exists (p * h + qx)%Q, (p * (h * h) + qy)%Q.
      unfold fdot in *. cbn [map zip_with fsum foldr].
      fold (fsum (zip_with (fun p h => (p * Fin h)%fl) prev col)).
      fold (fsum (zip_with (fun p h => (p * Fin h)%fl) prev
                    (map (fun h => (h * h)%Q) col))).
      rewrite Hx, Hy. repeat split; nra.
Qed.

Lemma balancing_factor_positive (prev zs : list float) (k : nat) (ak : Q) :
  all_bounded prev ->
  Forall positive_number zs ->
  arow !! k = Some ak ->
  k < length zs ->
  positive_number (balancing_factor hh_table [arow] mu prev zs k ak).
Proof.
  intros Hprev Hzs Hak Hk. unfold balancing_factor.
  destruct (fdot_counts prev (column hh_table k)
              (bounded_not_negative prev Hprev) (column_counts k))
    as (qx & qy & -> & -> & Hxy).
  cbn [flt]. case_Qlt; [|exists 1%Q; split; [reflexivity | lra]].
  case_Qlt; [|exists (1 # 100)%Q; split; [reflexivity | lra]].
  assert (item2 [arow] 0 k = ak) as ->.
  { unfold item2, item. simpl. rewrite Hak. reflexivity. }
  assert (exists qz, fitem zs k = Fin qz /\ (0 < qz)%Q) as (qz & -> & Hqz).
  { destruct (lookup_lt_is_Some_2 zs k Hk) as [zk Hzk].
    unfold fitem. rewrite Hzk. simpl.
    rewrite Forall_lookup in Hzs. exact (Hzs k zk Hzk). }
  pose proof (mu_positive k (lookup_lt_Some _ _ _ Hak)) as Hm.
  rewrite (fdiv_finite 1 (item2 mu 0 k)) by lra.
  cbn [fmul fadd fsub fopp].
  assert (0 < 1 / item2 mu 0 k)%Q as Hinv.
  { apply Qlt_shift_div_l; lra. }
  assert (0 < ak * qz)%Q as Hakz by nra.
  assert (0 < ak * qz * (1 / item2 mu 0 k))%Q as Hrel by nra.
  rewrite fdiv_finite by lra.
  cbn [fadd fopp].
  eexists. split; [reflexivity|].
  assert ((qx + - (ak * qz)) / (qy + ak * qz * (1 / item2 mu 0 k)) < 1)%Q.
  { apply Qlt_shift_div_r; lra. }
  lra.
Qed.

Lemma update_sample_bounded prev (a : Q) k cur s :
  (0 < a)%Q ->
  all_bounded prev ->
  all_bounded cur ->
  all_bounded (upd prev (Fin a) k cur s).
Proof.
  intros Ha Hprev [Hlen Hcur]. unfold update_sample.
  destruct (Qlt_bool 0 (item2 hh_table s k)); [|split; assumption].
  split; [rewrite length_insert; exact Hlen|].
  intros i wi r Hw.
  destruct (decide (s = i)) as [->|Hne].
  - rewrite list_lookup_insert_eq
      by (rewrite Hlen; eapply lookup_lt_Some, Hw).
    intros [= <-].
    unfold sample_weight_lower, sample_weight_upper, item.
    rewrite !map_fmap, !list_lookup_fmap, Hw. simpl.
    assert (exists p, fitem prev i = Fin p) as [p ->].
    { unfold fitem. destruct (prev !! i) as [r|] eqn:Hr; simpl; [|eauto].
      destruct (proj2 Hprev i wi r Hw Hr) as (q & -> & _). eauto. }
    destruct (power_positive a (item2 hh_table i k) Ha) as (v & -> & _).
    rewrite Forall_lookup in w_positive. specialize (w_positive i wi Hw).
    destruct (py_clamp (Fin p * Fin v)%fl (wi / 5) (wi * 5))
      as [[Hnan _]|[_ Hq]].
    + apply Qle_shift_div_r; lra.
    + discriminate.
    + exact Hq.
  - rewrite list_lookup_insert_ne by exact Hne. apply Hcur, Hw.
Qed.

Lemma control_step_counts prev st (t k : nat) (ak : Q) :
  arow !! k = Some ak ->
  all_bounded prev ->
  length (alpha st) = ncols hh_table ->
  length (z st) = ncols hh_table ->
  Forall positive_number (z st) ->
  all_bounded (cur_w st) ->
  Forall positive_number (z (step prev st (t, k, ak))) /\
  all_bounded (cur_w (step prev st (t, k, ak))).
Proof.
  intros Hak Hprev Hla Hlz Hz Hcur.
  pose proof (lookup_lt_Some _ _ _ Hak) as Hk.
  destruct (balancing_factor_positive prev (z st) k ak Hprev Hz Hak
              ltac:(lia)) as (a & Hfa & Ha).
  cbn [control_step z cur_w]. rewrite Hfa.
  assert (fitem (<[k := Fin a]> (alpha st)) k = Fin a) as ->.
  { unfold fitem. rewrite list_lookup_insert_eq by lia. reflexivity. }
  split.
  - apply Forall_insert; [exact Hz|].
    destruct (lookup_lt_is_Some_2 (z st) k ltac:(lia)) as [zk Hzk].
    assert (fitem (z st) k = zk) as -> by (unfold fitem; rewrite Hzk; reflexivity).
    rewrite Forall_lookup in Hz. destruct (Hz k zk Hzk) as (qz & -> & Hqz).
    pose proof (mu_positive k Hk) as Hm.
    rewrite !fdiv_finite by lra.
    destruct (power_positive (1 / a) (1 / item2 mu 0 k)) as (v & -> & Hv).
    { apply Qlt_shift_div_l; lra. }
    exists (qz * v)%Q. split; [reflexivity | nra].
  - apply foldl_invariant; [|exact Hcur].
    intros cur s. apply update_sample_bounded; assumption.
Qed.

Lemma sweep_counts prev st :
  all_bounded prev ->
  length (alpha st) = ncols hh_table ->
  length (z st) = ncols hh_table ->
  Forall positive_number (z st) ->
  all_bounded (cur_w st) ->
  Forall positive_number (z (sweep1 prev st)) /\
  all_bounded (cur_w (sweep1 prev st)).
Proof.
  intros Hprev Hla Hlz Hz Hcur. unfold sweep.
  assert (forall e, e ∈ ndenumerate [arow] ->
            exists t k ak, e = (t, k, ak) /\ arow !! k = Some ak) as Hent.
  { intros e. rewrite ndenumerate_row, elem_of_lookup_imap.
    intros (k & ak & -> & Hk). eauto. }
  revert Hent st Hla Hlz Hz Hcur.
  induction (ndenumerate [arow]) as [|e l IH];
    intros Hent st Hla Hlz Hz Hcur; cbn [foldl]; [auto|].
  destruct (Hent e) as (t & k & ak & -> & Hak); [apply list_elem_of_here|].
  destruct (control_step_counts prev st t k ak Hak Hprev Hla Hlz Hz Hcur)
    as [Hz' Hcur'].
  destruct (control_step_lengths power hh_table [arow] mu w prev st
              (t, k, ak)) as (Hla' & Hlz' & _).
  apply IH; try assumption; try congruence.
  intros e' He'. apply Hent, list_elem_of_further, He'.
Qed.

Lemma sweeps_counts its prev st done :
  all_bounded prev ->
  length (alpha st) = ncols hh_table ->
  length (z st) = ncols hh_table ->
  Forall positive_number (z st) ->
  all_bounded (cur_w st) ->
  Forall positive_number (z (loop its prev st done).1) /\
  all_bounded (cur_w (loop its prev st done).1).
Proof.
  revert prev st done.
  induction its as [|its IH]; intros prev st done Hprev Hla Hlz Hz Hcur;
    cbn [sweeps]; [auto|].
  destruct (sweep_counts prev st Hprev Hla Hlz Hz Hcur) as [Hz' Hcur'].
  destruct (sweep_lengths power hh_table [arow] mu w prev st)
    as (Hla' & Hlz' & _).
  destruct (converged _ _); cbn [fst]; [auto|].
  apply IH; try assumption; congruence.
Qed.


End NewtonCounts.

(** *** The theorems at concrete inputs *)

Lemma newton_weights_within_bounds_witness :
  (exists r,
     (balance_newton Demo.int_power Demo.hh3 Demo.A Demo.mu_row Demo.w_col).1
       !! 0 = Some r /\
     (r = NaN \/ exists q, r = Fin q /\ (1 / 5 <= q <= 1 * 5)%Q)) /\
  (exists r,
     (balance_newton Demo.int_power Demo.hh_half Demo.A_tenth Demo.mu_one
        Demo.w_one).1 !! 0 = Some r /\
     (r = NaN \/ exists q, r = Fin q /\ (1 / 5 <= q <= 1 * 5)%Q)).
Proof.
  split.
  - apply (newton_weights_within_bounds Demo.int_power Demo.hh3 Demo.A
             Demo.mu_row Demo.w_col).
    + repeat constructor.
    + reflexivity.
  - apply (newton_weights_within_bounds Demo.int_power Demo.hh_half
             Demo.A_tenth Demo.mu_one Demo.w_one).
    + repeat constructor.
    + reflexivity.
Defined.

(** C6 (as stated, refuted): one sample with weight 1 that counts for half
    a household in the only control, a marginal of 0.1 and an importance
    weight of 1.  The first balancing factor is [1 - 0.4 / 0.35 = -1/7];
    its power with the exponent 0.5 is NaN, which [max] and [min] keep:
    the weight returned is NaN, no number between 0.2 and 5.  (The run
    evaluates the power function at [(-1/7, 0.5)], [(-7, 1)], [(1, 0.5)]
    and [(1, 1)], where [Demo.int_power] is exact.) *)
Lemma newton_bounds_counterexample :
  Forall (fun v => (0 < v)%Q) Demo.w_one /\
  Demo.w_one !! 0 = Some 1%Q /\
  alpha (after_sweeps Demo.int_power Demo.hh_half Demo.A_tenth Demo.mu_one
           Demo.w_one 1).2 = [Fin (-40 # 280)] /\
  Demo.int_power (Fin (-40 # 280)) (Fin (1 # 2)) = NaN /\
  py_min (py_max (Fin 1 * NaN)%fl (Fin (1 / 5))) (Fin (1 * 5)) = NaN /\
  (balance_newton Demo.int_power Demo.hh_half Demo.A_tenth Demo.mu_one
     Demo.w_one).1 = [NaN] /\
  ~ exists q,
      (balance_newton Demo.int_power Demo.hh_half Demo.A_tenth Demo.mu_one
         Demo.w_one).1 !! 0 = Some (Fin q) /\
      (1 / 5 <= q <= 1 * 5)%Q.
Proof.
  assert ((balance_newton Demo.int_power Demo.hh_half Demo.A_tenth
             Demo.mu_one Demo.w_one).1 = [NaN]) as Hrun
    by (vm_compute; reflexivity).
  split; [repeat constructor|]. split; [reflexivity|].
  split; [vm_compute; reflexivity|]. split; [reflexivity|].
  split; [reflexivity|]. split; [exact Hrun|].
  rewrite Hrun. intros (q & Hq & _). discriminate.
Qed.

Lemma newton_zero_row_untouched_witness :
  (balance_newton Demo.int_power Demo.hh3 Demo.A Demo.mu_row Demo.w_col).1
    !! 2 = Some (Fin 1).
Proof.
  apply (newton_zero_row_untouched Demo.int_power Demo.hh3 Demo.A
           Demo.mu_row Demo.w_col 2 [0; 0]%Q).
  - reflexivity.
  - repeat constructor.
Defined.

Lemma newton_control_update_witness :
  ndenumerate Demo.A !! 0 = Some (0, 0, 2%Q) /\
  exists a,
    alpha (control_step Demo.int_power Demo.hh3 Demo.A Demo.mu_row
             Demo.w_col (map Fin Demo.w_col) Demo.start (0, 0, 2%Q)) !! 0
      = Some a /\
    ((Fin 0 <? fdot (map Fin Demo.w_col) (column Demo.hh3 0))%fl = true ->
     (0 < 2)%Q ->
     feq a
       (Fin 1
        - (fdot (map Fin Demo.w_col) (column Demo.hh3 0) - Fin 2 * Fin 1)
          / (fdot (map Fin Demo.w_col)
               (map (fun h => (h * h)%Q) (column Demo.hh3 0))
             + Fin 2 * Fin 1 / Fin 1000))%fl) /\
    ((Fin 0 <? fdot (map Fin Demo.w_col) (column Demo.hh3 0))%fl = true ->
     2 == 0 -> a = Fin (1 # 100)) /\
    ((fdot (map Fin Demo.w_col) (column Demo.hh3 0) <=? Fin 0)%fl = true ->
     a = Fin 1) /\
    ((Fin 0 <? fdot (map Fin Demo.w_col) (column Demo.hh3 0))%fl = false ->
     a = Fin 1) /\
    z (control_step Demo.int_power Demo.hh3 Demo.A Demo.mu_row
         Demo.w_col (map Fin Demo.w_col) Demo.start (0, 0, 2%Q)) !! 0
      = Some (Fin 1 * Demo.int_power (Fin 1 / a) (Fin 1 / Fin 1000))%fl.
Proof.
  apply (newton_control_update Demo.int_power Demo.hh3 Demo.A Demo.mu_row
           Demo.w_col (map Fin Demo.w_col) Demo.start [2; 1]%Q 0 2%Q
           (Fin 1)).
  - reflexivity.
  - reflexivity.
  - reflexivity.
  - simpl. lia.
Defined.

(** A run that stops after its first sweep: the only sample is in no
    control, so nothing changes. *)
Example newton_stops_at_once :
  newton_run Demo.int_power [[0]]%Q [[1]]%Q [[1]]%Q [1]%Q
  = ({| alpha := [Fin 1]; z := [Fin 1]; cur_w := [Fin 1] |}, 1).
Proof. vm_compute. reflexivity. Qed.

Lemma control_step_weights_witness :
  cur_w (control_step Demo.int_power Demo.hh3 Demo.A Demo.mu_row Demo.w_col
           (map Fin Demo.w_col) Demo.start (0, 0, 2%Q)) !! 1
  = Some (Fin 1).
Proof.
  exact (control_step_weights Demo.int_power Demo.hh3 Demo.A Demo.mu_row
           Demo.w_col (map Fin Demo.w_col) Demo.start 0 0 2%Q 1 (Fin 1)
           eq_refl).
Defined.

Lemma newton_bounds_per_sample_witness :
  exists r,
    (balance_newton Demo.int_power Demo.hh3 Demo.A Demo.mu_row
       Cases.w_mixed).1 !! 0 = Some r /\
    (r = NaN \/ exists q, r = Fin q /\ (0 / 5 <= q <= 0 * 5)%Q) /\
    (0 == 0 -> r = NaN \/ exists q, r = Fin q /\ q == 0).
Proof.
  apply (newton_bounds_per_sample Demo.int_power Demo.hh3 Demo.A
           Demo.mu_row Cases.w_mixed 0 0%Q).
  - reflexivity.
  - apply Qle_refl.
Defined.

Lemma newton_negative_weight_witness :
  (balance_newton Demo.int_power Demo.hh3 Demo.A Demo.mu_row
     Cases.w_mixed).1 !! 2 = Some (Fin (-1)) \/
  (balance_newton Demo.int_power Demo.hh3 Demo.A Demo.mu_row
     Cases.w_mixed).1 !! 2 = Some (Fin (-1 * 5)) \/
  (balance_newton Demo.int_power Demo.hh3 Demo.A Demo.mu_row
     Cases.w_mixed).1 !! 2 = Some NaN.
Proof.
  apply (newton_negative_weight Demo.int_power Demo.hh3 Demo.A
           Demo.mu_row Cases.w_mixed 2 (-1)%Q).
  - reflexivity.
  - reflexivity.
Defined.

(** Two samples with the weights 10 and -0.1: the first sweep leaves the
    second at [-0.1 * 5] and a negative balancing factor, whose reciprocal
    has no power with the exponent 1/1000; from the second sweep on both
    weights are NaN. *)
Example newton_negative_weight_nan :
  cur_w (after_sweeps Demo.int_power Cases.hh_two Demo.A_tenth
           Cases.mu_high Cases.w_signs 1).2 = [Fin (10 # 5); Fin (-0.5)] /\
  z (after_sweeps Demo.int_power Cases.hh_two Demo.A_tenth
       Cases.mu_high Cases.w_signs 1).2 = [NaN] /\
  (balance_newton Demo.int_power Cases.hh_two Demo.A_tenth Cases.mu_high
     Cases.w_signs).1 = [NaN; NaN].
Proof. repeat split; vm_compute; reflexivity. Qed.

Lemma newton_no_samples_witness :
  (newton_run Demo.int_power [] Demo.A Demo.mu_row []).2 = MAX_ITERATIONS /\
  (balance_newton Demo.int_power [] Demo.A Demo.mu_row []).1 = [].
Proof.
  apply (newton_no_samples Demo.int_power [] Demo.A Demo.mu_row []).
  reflexivity.
Defined.

Lemma newton_no_controls_witness :
  newton_run Demo.int_power Demo.hh3 [] Demo.mu_row Demo.w_col
    = (initial_state Demo.hh3 Demo.w_col, 1) /\
  balance_newton Demo.int_power Demo.hh3 [] Demo.mu_row Demo.w_col
    = (map Fin Demo.w_col, replicate (ncols Demo.hh3) (Fin 1)).
Proof.
  apply (newton_no_controls Demo.int_power Demo.hh3 [] Demo.mu_row
           Demo.w_col).
  - reflexivity.
  - discriminate.
Defined.

Lemma int_power_positive (a h : Q) :
  (0 < a)%Q -> positive_number (Demo.int_power (Fin a) (Fin h)).
Proof.
  intros Ha. unfold Demo.int_power.
  assert (Qeq_bool a 0 = false) as ->.
  { destruct (Qeq_bool a 0) eqn:E; [|reflexivity].
    apply Qeq_bool_iff in E. lra. }
  assert (Qlt_bool a 0 = false) as -> by (apply Qlt_bool_false; lra).
  destruct (Qeq_bool h _); eexists; (split; [reflexivity|]);
    apply Qpower_0_lt, Ha.
Qed.

(** ** The claim about discretize_multi_weights *)

Lemma threshold_binary (v : Q) :
  (threshold v = 1%Q /\ (1 # 2 < v)%Q) \/ (threshold v = 0%Q /\ (v <= 1 # 2)%Q).
Proof.
  unfold threshold. case_Qlt; [left | right]; auto.
Qed.

(** C8: on every solved instance the discretizer's result [Y] is binary:
    it has the shape of the continuous solution [y], and each entry is 1
    where [y > 0.5] and 0 elsewhere. *)
Theorem discretizer_binary (log : Q -> Q)
    (solve_selection : selection_problem -> selection_outcome)
    (hh_table x : matrix) (gamma : Q) (y : matrix) :
  solve_selection (selection_program log hh_table x gamma)
    = Selection (Some y) ->
  exists Y,
    discretize_multi_weights log solve_selection hh_table x gamma
      = Returned Y /\
    entries (fun v => v = 0%Q \/ v = 1%Q) Y /\
    Forall2 (Forall2 (fun v yv =>
               (v = 1%Q /\ (1 # 2 < yv)%Q) \/ (v = 0%Q /\ (yv <= 1 # 2)%Q)))
      Y y.
Proof.
  intros Hsolve. exists (map (map threshold) y).
  unfold discretize_multi_weights. rewrite Hsolve. clear Hsolve.
  split; [reflexivity|]. split.
  - unfold entries.
    induction y as [|r y' IH]; simpl; constructor; [|exact IH].
    clear. induction r as [|v r IH]; simpl; constructor; [|exact IH].
    destruct (threshold_binary v) as [[-> _]|[-> _]]; auto.
  - induction y as [|r y' IH]; simpl; constructor; [|exact IH].
    clear. induction r as [|v r IH]; simpl; constructor; [|exact IH].
    apply threshold_binary.
Qed.

Lemma discretizer_binary_witness :
  exists Y,
    discretize_multi_weights Demo.no_log Demo.half_open Demo.hh_table
      [[3 # 2; 1 # 2]; [1 # 2; 5 # 4]]%Q 100 = Returned Y /\
    entries (fun v => v = 0%Q \/ v = 1%Q) Y /\
    Forall2 (Forall2 (fun v yv =>
               (v = 1%Q /\ (1 # 2 < yv)%Q) \/ (v = 0%Q /\ (yv <= 1 # 2)%Q)))
      Y [[3 # 4; 1 # 4]; [1 # 2; 1]]%Q.
Proof.
  apply (discretizer_binary Demo.no_log Demo.half_open Demo.hh_table
           [[3 # 2; 1 # 2]; [1 # 2; 5 # 4]]%Q 100).
  reflexivity.
Defined.

(** * Further properties *)

(** ** Preprocessing of balance_multi_cvx: the zero-marginal tracts *)

Lemma row_any_false (r : vector) : row_any r = false <-> all_zero r.
Proof.
  unfold row_any, all_zero, truthy. induction r as [|v r IH]; simpl.
  - split; [constructor | reflexivity].
  - rewrite orb_false_iff, IH, negb_false_iff, Qeq_bool_iff.
    split; [intros [H1 H2]; constructor; assumption|].
    intros H. inversion H; subst. split; assumption.
Qed.

Lemma row_any_true (r : vector) : row_any r = true <-> ~ all_zero r.
Proof.
  rewrite <- row_any_false. destruct (row_any r); split; congruence.
Qed.

Lemma where_from_spec (flags : list bool) (p i : nat) :
  i ∈ where_from p flags <-> p <= i /\ flags !! (i - p) = Some true.
Proof.
  revert p. induction flags as [|b fl IH]; intros p; simpl.
  - rewrite elem_of_nil. split; [tauto | intros [_ H]; discriminate].
  - assert (i ∈ (if b then p :: where_from (S p) fl else where_from (S p) fl)
            <-> (b = true /\ i = p) \/ i ∈ where_from (S p) fl) as ->.
    { destruct b; [rewrite elem_of_cons|]; intuition congruence. }
    rewrite IH.
    destruct (decide (i = p)) as [->|Hne].
    + rewrite Nat.sub_diag. simpl.
      split; [intros [[-> _]|[H _]]; [auto | lia] | intros [_ [= ->]]; auto].
    + split.
      * intros [[_ H]|[H1 H2]]; [congruence|]. split; [lia|].
        replace (i - p) with (S (i - S p)) by lia. exact H2.
      * intros [H1 H2]. right. split; [lia|].
        replace (i - p) with (S (i - S p)) in H2 by lia. exact H2.
Qed.

Lemma where_from_sorted (flags : list bool) (p : nat) :
  StronglySorted lt (where_from p flags).
Proof.
  revert p. induction flags as [|b fl IH]; intros p; simpl; [constructor|].
  destruct b; [|apply IH].
  constructor; [apply IH|].
  apply Forall_forall. intros i Hi. apply where_from_spec in Hi. lia.
Qed.

(** X1: [zero_marginals A] lists, in ascending order and without repeats,
    exactly the positions of the rows of [A] that have no non-zero entry. *)
Theorem zero_marginals_exact (A : matrix) :
  (forall i,
     i ∈ zero_marginals A <-> exists r, A !! i = Some r /\ all_zero r) /\
  StronglySorted lt (zero_marginals A).
Proof.
  split; [|apply where_from_sorted].
  intros i. unfold zero_marginals, np_where.
  rewrite where_from_spec, Nat.sub_0_r, map_fmap, list_lookup_fmap.
  destruct (A !! i) as [r|]; simpl.
  - split.
    + intros [_ [= H]]. exists r. split; [reflexivity|].
      apply row_any_false, negb_true_iff, H.
    + intros (r' & [= <-] & H). split; [lia|].
      apply row_any_false in H. rewrite H. reflexivity.
  - split; [intros [_ H]; discriminate | intros (r & H & _); discriminate].
Qed.

Lemma delete_from_nil {T} (arr : list T) p : delete_from p [] arr = arr.
Proof.
  revert p. induction arr as [|a arr IH]; intros p; cbn [delete_from];
    [reflexivity|].
  rewrite bool_decide_eq_false_2 by apply not_elem_of_nil.
  rewrite IH. reflexivity.
Qed.

Lemma delete_from_ext {T} (obj obj' : list nat) (arr : list T) p :
  (forall i, p <= i -> i ∈ obj <-> i ∈ obj') ->
  delete_from p obj arr = delete_from p obj' arr.
Proof.
  revert p. induction arr as [|a arr IH]; intros p H; cbn [delete_from];
    [reflexivity|].
  rewrite (IH (S p)) by (intros i Hi; apply H; lia).
  rewrite (bool_decide_ext (p ∈ obj) (p ∈ obj')) by (apply H; lia).
  reflexivity.
Qed.

(** Deleting the positions that a test flags keeps the entries the test
    does not flag, here for two arrays of one length at once. *)
Lemma delete_where_zip {X T} (g : X -> bool) (A : list X) (w : list T) p :
  length w = length A ->
  delete_from p (where_from p (map g A)) A = filter (fun x => g x = false) A /\
  zip (delete_from p (where_from p (map g A)) A)
      (delete_from p (where_from p (map g A)) w)
  = filter (fun x => g x.1 = false) (zip A w).
Proof.
  revert w p. induction A as [|a A IH]; intros w p Hlen.
  - destruct w; [|discriminate]. split; reflexivity.
  - destruct w as [|b w]; [discriminate|]. injection Hlen as Hlen.
    destruct (IH w (S p) Hlen) as [IH1 IH2].
    cbn [map where_from delete_from zip zip_with].
    rewrite !filter_cons. cbn [fst]. destruct (g a) eqn:Hg.
    + rewrite bool_decide_eq_true_2 by apply list_elem_of_here.
      rewrite !(delete_from_ext (p :: where_from (S p) (map g A))
                  (where_from (S p) (map g A))).
      2,3: intros i Hi; rewrite elem_of_cons; split; [intros [->|H]|]; auto; lia.
      rewrite decide_False by discriminate.
      rewrite decide_False by discriminate. auto.
    + rewrite bool_decide_eq_false_2.
      2:{ intros H. apply where_from_spec in H. lia. }
      rewrite decide_True by reflexivity.
      rewrite decide_True by reflexivity.
      split; [rewrite IH1; reflexivity|].
      cbn [zip_with]. rewrite IH2. reflexivity.
Qed.

Lemma where_from_count (flags : list bool) (p : nat) :
  length (where_from p flags) + length (filter (fun b => b = false) flags)
  = length flags.
Proof.
  revert p. induction flags as [|b fl IH]; intros p; [reflexivity|].
  cbn [where_from]. rewrite filter_cons. specialize (IH (S p)).
  destruct b.
  - rewrite decide_False by discriminate. cbn [length]. lia.
  - rewrite decide_True by reflexivity. cbn [length]. lia.
Qed.

Lemma remove_tracts_unfold (zm : list nat) (A w mu : matrix) :
  remove_tracts zm A w mu
  = (np_delete A zm, np_delete w zm, map (fun r => np_delete r zm) mu).
Proof.
  destruct zm as [|i zm]; [|reflexivity]. simpl. unfold np_delete.
  rewrite !delete_from_nil. f_equal.
  induction mu as [|r mu IH]; simpl; [reflexivity|].
  rewrite delete_from_nil, <- IH. reflexivity.
Qed.

Lemma kept_rows (A : matrix) :
  np_delete A (zero_marginals A) = filter (fun r => row_any r = true) A.
Proof.
  unfold np_delete, zero_marginals, np_where.
  destruct (delete_where_zip (fun r => negb (row_any r)) A A 0 eq_refl)
    as [-> _].
  apply list_filter_iff. intros r. apply negb_false_iff.
Qed.

(** X2: preprocessing keeps exactly the tracts that have a non-zero
    marginal, in their order: no row of the [A] handed to the solver is all
    zero, and the rows kept and the positions recorded add up to the rows
    of the input. *)
Theorem kept_tracts_have_marginals (A w mu : matrix) :
  let A' := (remove_tracts (zero_marginals A) A w mu).1.1 in
  A' = filter (fun r => row_any r = true) A /\
  Forall (fun r => ~ all_zero r) A' /\
  length A' + length (zero_marginals A) = length A.
Proof.
  rewrite remove_tracts_unfold. simpl. rewrite kept_rows.
  split; [reflexivity|]. split.
  - apply Forall_forall. intros r Hr.
    apply list_elem_of_filter in Hr as [Hr _]. apply row_any_true, Hr.
  - unfold zero_marginals, np_where.
    pose proof (where_from_count (map (fun r => negb (row_any r)) A) 0) as H.
    rewrite length_map in H.
    assert (length (filter (fun r => row_any r = true) A)
            = length (filter (fun b => b = false)
                        (map (fun r => negb (row_any r)) A))) as Hc.
    { clear. induction A as [|r A IH]; [reflexivity|].
      cbn [map]. rewrite !filter_cons.
      destruct (row_any r); cbn [negb].
      - rewrite !decide_True by reflexivity. cbn [length]. congruence.
      - rewrite !decide_False by discriminate. exact IH. }
    lia.
Qed.

(** X3: the rows stay paired through preprocessing: the prior weights and
    the importance weights of a kept tract remain at that tract's position,
    next to its marginals. *)
Theorem kept_tracts_stay_paired (A w mu : matrix) :
  length w = length A ->
  Forall (fun m => length m = length A) mu ->
  let R := remove_tracts (zero_marginals A) A w mu in
  zip R.1.1 R.1.2 = filter (fun x => row_any x.1 = true) (zip A w) /\
  Forall2 (fun m m' =>
             zip R.1.1 m' = filter (fun x => row_any x.1 = true) (zip A m))
    mu R.2.
Proof.
  intros Hw Hmu. rewrite remove_tracts_unfold. simpl.
  unfold np_delete, zero_marginals, np_where.
  assert (forall T (v : list T), length v = length A ->
    zip (delete_from 0 (where_from 0 (map (fun r => negb (row_any r)) A)) A)
        (delete_from 0 (where_from 0 (map (fun r => negb (row_any r)) A)) v)
    = filter (fun x => row_any x.1 = true) (zip A v)) as Hpair.
  { intros T v Hv.
    destruct (delete_where_zip (fun r => negb (row_any r)) A v 0 Hv)
      as [_ ->].
    apply list_filter_iff. intros x. apply negb_false_iff. }
  split; [apply Hpair, Hw|].
  rewrite map_fmap. apply Forall2_fmap_r, Forall_Forall2_diag.
  eapply Forall_impl; [exact Hmu|]. intros m Hm. apply Hpair, Hm.
Qed.

Lemma kept_tracts_stay_paired_witness :
  zip [[1; 1]]%Q [[2; 3]]%Q
  = filter (fun x => row_any x.1 = true)
      (zip Demo.A3 [[5; 6]; [7; 8]; [2; 3]]%Q).
Proof.
  refine (proj1 (kept_tracts_stay_paired Demo.A3 [[5; 6]; [7; 8]; [2; 3]]%Q
                   Demo.mu3 _ _)).
  - reflexivity.
  - repeat constructor.
Defined.

(** ** Post-processing of balance_multi_cvx: the re-insertion *)

Lemma retry_loop_raises solve mk fuel calls (mu : matrix) relaxed steps e :
  retry_loop solve mk fuel calls mu relaxed steps = Some (Raised e) ->
  e = SolverError.
Proof.
  revert calls mu relaxed steps.
  induction fuel as [|fuel IH]; intros calls mu relaxed steps; [discriminate|].
  simpl. destruct (solve calls (mk mu)); [|intros [= <-]; reflexivity].
  destruct (solve (S calls) (mk mu)); [discriminate|].
  destruct (all_ones mu); [discriminate|]. apply IH.
Qed.

(** X4: when some tract has zero marginals and the number of controls is
    neither the number of samples nor 1, the call cannot return: the zero
    row built on line 91 has one entry per control and does not fit the
    tract-by-sample weight matrix, so the call ends in an exception. *)
Theorem zero_tract_needs_square_table (solve : solver)
    (hh_table A B w mu meta_mu : matrix) :
  zero_marginals A <> [] ->
  ncols hh_table <> length hh_table ->
  ncols hh_table <> 1 ->
  balance_multi_cvx solve hh_table A B w mu meta_mu
    = Some (Raised SolverError) \/
  balance_multi_cvx solve hh_table A B w mu meta_mu
    = Some (Raised IndexError) \/
  balance_multi_cvx solve hh_table A B w mu meta_mu
    = Some (Raised ValueError).
Proof.
  intros Hzm Hsq Hone.
  destruct (balance_multi_cvx_total solve hh_table A B w mu meta_mu)
    as [r Hr].
  rewrite Hr. revert Hr.
  unfold balance_multi_cvx, balance_multi_cvx_fuel.
  destruct (remove_tracts (zero_marginals A) A w mu) as [[A' w'] mu'].
  destruct (retry_loop _ _ _ _ _ _ _) as [[ex|e]|] eqn:Hloop; [|  |discriminate].
  - unfold insert_zeros.
    destruct (zero_marginals A) as [|i zm]; [congruence|].
    unfold np_insert_rows. rewrite length_replicate.
    destruct (negb _).
    + intros [= <-]. auto.
    + apply Nat.eqb_neq in Hsq, Hone. rewrite Hsq, Hone.
      intros [= <-]. auto.
  - apply retry_loop_raises in Hloop as ->. intros [= <-]. auto.
Qed.

Lemma zero_tract_needs_square_table_witness :
  balance_multi_cvx Demo.steady Cases.hh32 Cases.A_tail Cases.B_tail
    Cases.w_tail Cases.mu_tail Demo.meta_mu = Some (Raised SolverError) \/
  balance_multi_cvx Demo.steady Cases.hh32 Cases.A_tail Cases.B_tail
    Cases.w_tail Cases.mu_tail Demo.meta_mu = Some (Raised IndexError) \/
  balance_multi_cvx Demo.steady Cases.hh32 Cases.A_tail Cases.B_tail
    Cases.w_tail Cases.mu_tail Demo.meta_mu = Some (Raised ValueError).
Proof.
  apply (zero_tract_needs_square_table Demo.steady Cases.hh32 Cases.A_tail
           Cases.B_tail Cases.w_tail Cases.mu_tail Demo.meta_mu).
  - discriminate.
  - simpl. lia.
  - simpl. lia.
Defined.

Lemma filter_eq_below (obj : list nat) (p : nat) :
  Forall (fun i => i < p) obj -> filter (eq p) obj = [].
Proof.
  induction 1 as [|i obj Hi _ IH]; [reflexivity|].
  rewrite filter_cons_False by lia. exact IH.
Qed.

Lemma insert_from_below {T} (v : T) (obj : list nat) (arr : list T) p :
  Forall (fun i => i < p) obj -> insert_from p obj v arr = arr.
Proof.
  revert p. induction arr as [|a arr IH]; intros p Hobj; simpl;
    rewrite filter_eq_below by exact Hobj; simpl; [reflexivity|].
  rewrite IH; [reflexivity|].
  eapply Forall_impl; [exact Hobj|]. simpl. lia.
Qed.

(** Deleting the one position just filled gives the array back. *)
Lemma delete_insert_single {T} (v : T) (arr : list T) (p i : nat) :
  i <= length arr ->
  delete_from p [p + i] (insert_from p [p + i] v arr) = arr.
Proof.
  revert p i. induction arr as [|a arr IH]; intros p i Hi.
  - simpl in Hi. assert (i = 0) as -> by lia. rewrite Nat.add_0_r.
    cbn [insert_from]. rewrite filter_cons_True by reflexivity.
    cbn [filter list_filter length replicate app delete_from].
    rewrite bool_decide_eq_true_2 by apply list_elem_of_here. reflexivity.
  - destruct i as [|i].
    + rewrite Nat.add_0_r. cbn [insert_from].
      rewrite filter_cons_True by reflexivity.
      cbn [filter list_filter length replicate app delete_from].
      rewrite bool_decide_eq_true_2 by apply list_elem_of_here.
      rewrite insert_from_below by (repeat constructor).
      rewrite bool_decide_eq_false_2.
      2:{ rewrite elem_of_cons, elem_of_nil. lia. }
      rewrite (delete_from_ext [p] []).
      2:{ intros j Hj. rewrite elem_of_cons, elem_of_nil. lia. }
      rewrite delete_from_nil. reflexivity.
    + cbn [insert_from]. rewrite filter_cons_False by lia.
      cbn [filter list_filter length replicate app delete_from].
      rewrite bool_decide_eq_false_2.
      2:{ rewrite elem_of_cons, elem_of_nil. lia. }
      replace (p + S i) with (S p + i) by lia.
      rewrite IH by (simpl in Hi; lia). reflexivity.
Qed.

Lemma np_insert_rows_single (width n : nat) (arr out : matrix) (i : nat) :
  np_insert_rows width arr [i] (replicate n 0%Q) = Returned out ->
  i <= length arr /\ out = insert_from 0 [i] (replicate width 0%Q) arr.
Proof.
  unfold np_insert_rows. simpl. rewrite andb_true_r, length_replicate.
  destruct (i <=? length arr) eqn:Hi; simpl; [|discriminate].
  apply Nat.leb_le in Hi.
  destruct (n =? width) eqn:En.
  - apply Nat.eqb_eq in En as ->. intros [= <-]. auto.
  - destruct (n =? 1) eqn:E1; [|discriminate].
    apply Nat.eqb_eq in E1 as ->. intros [= <-]. auto.
Qed.

Lemma np_insert_cols_single (height n : nat) (arr out : matrix) (i : nat) :
  rectangular arr ->
  np_insert_cols height arr [i] (replicate n 0%Q) = Returned out ->
  Forall (fun r => r !! i = Some 0%Q) out.
Proof.
  intros Hrect. unfold np_insert_cols. simpl.
  rewrite andb_true_r, length_replicate.
  destruct (i <=? ncols arr) eqn:Hi; simpl; [|discriminate].
  apply Nat.leb_le in Hi.
  assert (forall r, r ∈ arr -> insert_from 0 [i] 0%Q r !! i = Some 0%Q)
    as Hrow.
  { intros r Hr. apply (insert_from_single 0%Q r 0 i).
    unfold rectangular in Hrect. rewrite Forall_forall in Hrect.
    rewrite (Hrect r Hr). exact Hi. }
  destruct (n =? height) eqn:En.
  - intros [= <-]. apply Forall_forall. intros r' Hr'.
    apply elem_of_zip_with in Hr' as (v & r & -> & Hv & Hr).
    apply elem_of_replicate in Hv as [-> _]. apply Hrow, Hr.
  - destruct (n =? 1) eqn:E1; [|discriminate].
    apply Nat.eqb_eq in E1 as ->. intros [= <-].
    rewrite map_fmap. apply Forall_fmap, Forall_forall.
    intros r Hr. apply Hrow, Hr.
Qed.

(** X5: with exactly one zero-marginal tract, at position [i], a call that
    returns has put the tract back where it was: row [i] of the returned
    weights is all zero, the other rows are the weights computed for the
    remaining tracts (the solver's [x] or the rescaled prior) in their
    order, and every row of the returned relaxation factors has a zero in
    column [i]. *)
Theorem single_zero_tract_reinserted (solve : solver)
    (hh_table A B w mu meta_mu : matrix) (i : nat)
    (weights : matrix) (zs qs : option matrix) :
  zero_marginals A = [i] ->
  (forall c p v zv,
     solve c p = Solved v -> z_value v = Some zv -> rectangular zv) ->
  balance_multi_cvx solve hh_table A B w mu meta_mu
    = Some (Returned (weights, zs, qs)) ->
  weights !! i = Some (replicate (length hh_table) 0%Q) /\
  (np_delete weights [i] = rescaled_prior A w mu \/
   exists c p v,
     solve c p = Solved v /\ x_value v = Some (np_delete weights [i])) /\
  exists zs', zs = Some zs' /\ Forall (fun r => r !! i = Some 0%Q) zs'.
Proof.
  intros Hzm Hrect.
  unfold balance_multi_cvx, balance_multi_cvx_fuel, rescaled_prior.
  rewrite Hzm.
  destruct (remove_tracts [i] A w mu) as [[A' w'] mu'].
  destruct (retry_loop _ _ _ _ _ _ _) as [[ex|e]|] eqn:Hloop; [|discriminate..].
  apply retry_loop_exit in Hloop as (_ & _ & _ & _ & c & m & Hv).
  unfold insert_zeros.
  destruct (np_insert_rows _ _ _ _) as [wo|e] eqn:Hins; [|discriminate].
  destruct (z_value (exit_values ex)) as [zv|] eqn:Hz; [|discriminate].
  destruct (np_insert_cols _ _ _ _) as [zo|e] eqn:Hcols; [|discriminate].
  intros [= <- <- _].
  apply np_insert_rows_single in Hins as [Hi ->].
  split; [apply (insert_from_single _ _ 0 i), Hi|]. split.
  - unfold np_delete. rewrite (delete_insert_single _ _ 0 i) by exact Hi.
    destruct (x_value (exit_values ex)) as [xv|] eqn:Hx; [|auto].
    destruct (np_any xv); [|auto].
    right. eauto.
  - exists zo. split; [reflexivity|].
    eapply np_insert_cols_single; [|exact Hcols].
    eapply Hrect; eassumption.
Qed.

Lemma single_zero_tract_reinserted_witness :
  [[1; 1]; [0; 0]; [2; 1]]%Q !! 1 = Some (replicate 2 0%Q) /\
  (np_delete [[1; 1]; [0; 0]; [2; 1]]%Q [1]
     = rescaled_prior Cases.A_mid Demo.w3 Demo.mu3 \/
   exists c p v,
     Cases.solved_two c p = Solved v /\
     x_value v = Some (np_delete [[1; 1]; [0; 0]; [2; 1]]%Q [1])) /\
  exists zs',
    Some [[1; 0; 1]; [1; 0; 1]]%Q = Some zs' /\
    Forall (fun r => r !! 1 = Some 0%Q) zs'.
Proof.
  apply (single_zero_tract_reinserted Cases.solved_two Demo.hh_table
           Cases.A_mid Cases.B_mid Demo.w3 Demo.mu3 Demo.meta_mu 1
           [[1; 1]; [0; 0]; [2; 1]]%Q (Some [[1; 0; 1]; [1; 0; 1]]%Q)
           (Some [[1]; [1]]%Q)).
  - reflexivity.
  - intros c p v zv [= <-] [= <-]. repeat constructor.
  - reflexivity.
Defined.

(** ** More on the backoff of balance_multi_cvx *)

Lemma iter_relax_mu (k : nat) (mu : matrix) :
  Nat.iter k relax_mu mu = map (map (Nat.iter k relax_entry)) mu.
Proof.
  induction k as [|k IH]; simpl.
  - induction mu as [|r mu IHm]; simpl; [reflexivity|].
    rewrite <- IHm. f_equal. induction r as [|e r IHr]; simpl; congruence.
  - rewrite IH. unfold relax_mu. rewrite !map_map.
    apply map_ext. intros r. rewrite map_map. reflexivity.
Qed.

Lemma iter_relax_entry (k : nat) (e : Q) :
  (10 * inject_Z (Z.of_nat k) < e)%Q ->
  Nat.iter k relax_entry e == e - 10 * inject_Z (Z.of_nat k).
Proof.
  induction k as [|k IH]; intros Hk.
  - simpl. change (inject_Z 0) with 0%Q. ring.
  - assert (inject_Z (Z.of_nat (S k)) == inject_Z (Z.of_nat k) + 1) as HS.
    { rewrite Nat2Z.inj_succ. unfold Z.succ. rewrite inject_Z_plus.
      reflexivity. }
    rewrite HS in Hk. rewrite HS.
    assert (10 * inject_Z (Z.of_nat k) < e)%Q as Hk'.
    { assert (0 <= inject_Z (Z.of_nat k))%Q.
      { change 0%Q with (inject_Z 0). rewrite <- Zle_Qle. lia. }
      lra. }
    specialize (IH Hk'). simpl. unfold relax_entry at 1.
    case_Qlt; lra.
Qed.



Lemma backoff_budget_zero (mu : matrix) :
  backoff_budget mu = 0 -> all_ones mu = true.
Proof.
  unfold backoff_budget, all_ones.
  induction mu as [|r mu IH]; simpl; [reflexivity|].
  intros H. rewrite IH by lia. rewrite andb_true_r.
  assert (sum_list (map entry_budget r) = 0) as Hr by lia. clear -Hr.
  induction r as [|e r IHr]; simpl in *; [reflexivity|].
  rewrite IHr by lia. rewrite andb_true_r.
  unfold entry_budget in Hr. destruct (Qeq_bool e 1); [reflexivity|lia].
Qed.

Lemma all_ones_budget (mu : matrix) :
  all_ones mu = true -> backoff_budget mu = 0.
Proof.
  unfold backoff_budget, all_ones.
  induction mu as [|r mu IH]; simpl; [reflexivity|].
  intros [Hr Hmu]%andb_true_iff. rewrite IH by exact Hmu.
  rewrite Nat.add_0_r. clear -Hr.
  induction r as [|e r IHr]; simpl in *; [reflexivity|].
  apply andb_true_iff in Hr as [He Hr]. rewrite IHr by exact Hr.
  unfold entry_budget. rewrite He. reflexivity.
Qed.

Lemma iter_reaches_floor (k : nat) (mu : matrix) :
  backoff_budget mu <= k -> all_ones (Nat.iter k relax_mu mu) = true.
Proof.
  revert mu. induction k as [|k IH]; intros mu Hk.
  - apply backoff_budget_zero. simpl. lia.
  - rewrite Nat.iter_succ_r. apply IH.
    destruct (backoff_budget_relax mu) as [Hle Hlt].
    destruct (all_ones mu) eqn:E.
    + apply all_ones_budget in E. lia.
    + specialize (Hlt eq_refl). lia.
Qed.



Lemma retry_loop_flag solve mk fuel calls (mu : matrix) relaxed steps ex :
  retry_loop solve mk fuel calls mu relaxed steps = Some (Returned ex) ->
  (backoffs ex = steps /\ importance_weights_relaxed ex = relaxed /\
   exit_mu ex = mu) \/
  (steps < backoffs ex /\ importance_weights_relaxed ex = true /\
   backoff_budget (exit_mu ex) < backoff_budget mu).
Proof.
  revert calls mu relaxed steps.
  induction fuel as [|fuel IH]; intros calls mu relaxed steps; [discriminate|].
  simpl. destruct (solve calls (mk mu)) as [v1|]; [|discriminate].
  destruct (solve (S calls) (mk mu)) as [v2|].
  - intros [= <-]. left. auto.
  - destruct (all_ones mu) eqn:E.
    + intros [= <-]. left. auto.
    + intros H. right.
      destruct (backoff_budget_relax mu) as [_ Hlt]. specialize (Hlt E).
      apply IH in H as [(Hb & Hf & Hm)|(Hb & Hf & Hm)].
      * rewrite Hb, Hf, Hm. auto.
      * repeat split; [lia | exact Hf | lia].
Qed.



Lemma retry_loop_last_solve solve mk fuel calls (mu : matrix) relaxed steps ex :
  retry_loop solve mk fuel calls mu relaxed steps = Some (Returned ex) ->
  exists c, solve c (mk (exit_mu ex)) = Solved (exit_values ex).
Proof.
  revert calls mu relaxed steps.
  induction fuel as [|fuel IH]; intros calls mu relaxed steps; [discriminate|].
  simpl. destruct (solve calls (mk mu)) as [v1|] eqn:E1; [|discriminate].
  destruct (solve (S calls) (mk mu)) as [v2|] eqn:E2.
  - intros [= <-]. simpl. eauto.
  - destruct (all_ones mu); [intros [= <-]; simpl; eauto | apply IH].
Qed.

(** X9: without zero-marginal tracts, the three arrays a call returns go
    back to one solve, of the problem built from the input, the rescaled
    prior and [mu] after some backoff steps: the relaxation factors are the
    [z] and [q] of that solve, and the weights are its [x], or the
    rescaled prior when that [x] has no non-zero entry; in that fallback
    the relaxation factors are still those of the rejected solution. *)
Theorem outputs_of_one_solve (solve : solver)
    (hh_table A B w mu meta_mu : matrix)
    (weights : matrix) (zs qs : option matrix) :
  zero_marginals A = [] ->
  balance_multi_cvx solve hh_table A B w mu meta_mu
    = Some (Returned (weights, zs, qs)) ->
  exists c k v,
    k <= backoff_budget mu /\
    solve c {| p_hh_table := hh_table; p_A := A; p_B := B;
               p_w := rescaled_prior A w mu;
               p_mu := Nat.iter k relax_mu mu;
               p_meta_mu := meta_mu |} = Solved v /\
    zs = z_value v /\ qs = q_value v /\
    ((x_value v = Some weights /\ np_any weights = true) \/
     (weights = rescaled_prior A w mu /\ np_any_value (x_value v) = false)).
Proof.
  intros Hzm.
  unfold balance_multi_cvx, balance_multi_cvx_fuel, rescaled_prior.
  rewrite Hzm. change (remove_tracts [] A w mu) with (A, w, mu).
  cbv beta iota zeta.
  destruct (retry_loop _ _ _ _ _ _ _) as [[ex|e]|] eqn:Hloop; [|discriminate..].
  unfold insert_zeros. intros [= <- <- <-].
  pose proof (retry_loop_last_solve _ _ _ _ _ _ _ _ Hloop) as [c Hc].
  apply retry_loop_exit in Hloop as (k & Hmu & _ & Hk & _).
  exists c, k, (exit_values ex). rewrite <- Hmu.
  split; [exact Hk|]. split; [exact Hc|]. split; [reflexivity|].
  split; [reflexivity|].
  destruct (x_value (exit_values ex)) as [xv|]; simpl; [|auto].
  destruct (np_any xv) eqn:E; auto.
Qed.

Lemma outputs_of_one_solve_witness :
  exists c k v,
    k <= backoff_budget Demo.mu /\
    Demo.fruitless c
      {| p_hh_table := Demo.hh_table; p_A := Demo.A; p_B := Demo.B;
         p_w := rescaled_prior Demo.A Demo.w Demo.mu;
         p_mu := Nat.iter k relax_mu Demo.mu;
         p_meta_mu := Demo.meta_mu |} = Solved v /\
    None = z_value v /\ None = q_value v /\
    ((x_value v = Some [[3 # 3; 3 # 3]]%Q /\
      np_any [[3 # 3; 3 # 3]]%Q = true) \/
     ([[3 # 3; 3 # 3]]%Q = rescaled_prior Demo.A Demo.w Demo.mu /\
      np_any_value (x_value v) = false)).
Proof.
  apply (outputs_of_one_solve Demo.fruitless Demo.hh_table Demo.A Demo.B
           Demo.w Demo.mu Demo.meta_mu [[3 # 3; 3 # 3]]%Q None None).
  - reflexivity.
  - reflexivity.
Defined.

(** ** More on discretize_multi_weights *)

Lemma astype_int_in_range (v : Q) :
  int64_range v ->
  astype_int v = inject_Z (Z.quot (Qnum v) (Zpos (Qden v))).
Proof.
  intros [Hlo Hhi]. unfold astype_int. cbv zeta.
  assert (INT64_MIN <= Z.quot (Qnum v) (Zpos (Qden v)) <= INT64_MAX)%Z
    as Hq.
  { destruct v as [n d]. unfold Qlt in Hlo, Hhi.
    cbn [Qnum Qden inject_Z Qopp] in Hlo, Hhi.
    unfold INT64_MIN, INT64_MAX. cbn [Qnum Qden].
    assert (0 < 2 ^ 63)%Z as Hb by reflexivity.
    revert Hlo Hhi Hb. generalize (2 ^ 63)%Z. intros b Hlo Hhi Hb.
    pose proof (Z.quot_rem' n (Zpos d)) as Hqr.
    revert Hqr. generalize (Z.quot n (Zpos d)). intros q Hqr.
    destruct (Z_lt_le_dec n 0) as [Hneg|Hpos].
    - pose proof (Z.rem_bound_pos_neg n (Zpos d) ltac:(lia) ltac:(lia)) as Hr.
      assert (0 < Zpos d * (q + b))%Z as H1
        by (rewrite Z.mul_add_distr_l; lia).
      assert (0 < Zpos d * (1 - q))%Z as H2
        by (rewrite Z.mul_sub_distr_l; lia).
      apply Z.mul_pos_cancel_l in H1, H2; lia.
    - pose proof (Z.rem_bound_pos n (Zpos d) Hpos ltac:(lia)) as Hr.
      assert (0 < Zpos d * (q + 1))%Z as H1
        by (rewrite Z.mul_add_distr_l; lia).
      assert (0 < Zpos d * (b - q))%Z as H2
        by (rewrite Z.mul_sub_distr_l; lia).
      apply Z.mul_pos_cancel_l in H1, H2; lia. }
  destruct Hq as [H1 H2].
  apply Z.leb_le in H1, H2. rewrite H1, H2. reflexivity.
Qed.

Lemma astype_int_residual (v : Q) :
  int64_range v ->
  v - astype_int v == Z.rem (Qnum v) (Zpos (Qden v)) # Qden v.
Proof.
  intros Hv. rewrite (astype_int_in_range v Hv).
  destruct v as [n d]. unfold Qeq, Qminus, Qplus, Qopp, inject_Z.
  simpl.
  pose proof (Z.quot_rem' n (Zpos d)) as H.
  nia.
Qed.

(** What the cast leaves of a number in the 64-bit range is its
    fractional part. *)
Lemma astype_int_fraction (v : Q) :
  int64_range v ->
  whole (v - (v - astype_int v)) /\
  ((0 <= v)%Q -> (0 <= v - astype_int v < 1)%Q) /\
  ((v <= 0)%Q -> (-1 < v - astype_int v <= 0)%Q) /\
  (v - astype_int v == 0 <-> whole v).
Proof.
  intros Hv.
  pose proof (astype_int_residual v Hv) as Hres.
  pose proof (astype_int_in_range v Hv) as Hcast.
  split; [|split; [|split]].
  - exists (Z.quot (Qnum v) (Zpos (Qden v))). rewrite Hcast. ring.
  - intros Hpos. rewrite Hres. destruct v as [n d]. simpl.
    assert (0 <= n)%Z as Hn.
    { unfold Qle in Hpos. simpl in Hpos. lia. }
    pose proof (Z.rem_bound_pos n (Zpos d) Hn ltac:(lia)) as Hb.
    unfold Qle, Qlt. simpl. lia.
  - intros Hneg. rewrite Hres. destruct v as [n d]. simpl.
    assert (n <= 0)%Z as Hn.
    { unfold Qle in Hneg. simpl in Hneg. lia. }
    pose proof (Z.rem_bound_abs n (Zpos d) ltac:(lia)) as Hb.
    pose proof (Z.rem_sign_mul n (Zpos d) ltac:(lia)) as Hs.
    assert (Z.rem n (Zpos d) <= 0)%Z as Hr.
    { destruct (Z.eq_dec n 0%Z) as [->|Hne];
        [rewrite Z.rem_0_l by lia; lia | nia]. }
    unfold Qle, Qlt. simpl. lia.
  - rewrite Hcast. destruct v as [n d]. cbn [Qnum Qden]. split.
    + intros H0. exists (Z.quot n (Zpos d)). lra.
    + intros [k Hk].
      assert (n = k * Zpos d)%Z as ->.
      { unfold Qeq in Hk. simpl in Hk. lia. }
      rewrite Z.quot_mul by lia.
      unfold Qeq, Qminus, Qplus, Qopp, inject_Z. simpl. lia.
Qed.

(** X16: for weights in the 64-bit range the coefficients of the
    objective are the logarithms of the weights' fractional parts:
    [x_log[t,s] = log(r)] with [x[t,s] - r] a whole number, [r] in [0, 1)
    for a weight that is not negative and in (-1, 0] for one that is not
    positive; [r] is zero, where the logarithm does not exist, exactly at
    the whole weights. *)
Theorem objective_logs_fractional_parts (log : Q -> Q)
    (hh_table x : matrix) (gamma : Q) :
  entries int64_range x ->
  exists R,
    s_x_log (selection_program log hh_table x gamma) = map (map log) R /\
    pointwise
      (fun r v =>
         whole (v - r) /\
         ((0 <= v)%Q -> (0 <= r < 1)%Q) /\
         ((v <= 0)%Q -> (-1 < r <= 0)%Q) /\
         (r == 0 <-> whole v))
      R x.
Proof.
  intros Hx. exists (mat_sub x (map (map astype_int) x)).
  split; [reflexivity|].
  unfold pointwise, mat_sub.
  induction Hx as [|row x Hrow _ IH]; cbn [map zip_with]; constructor;
    [|exact IH].
  clear IH. induction Hrow as [|v row Hv _ IH]; cbn [map zip_with];
    constructor; [|exact IH].
  apply astype_int_fraction, Hv.
Qed.

Lemma dot_sub (r r' col : vector) :
  length r = length r' ->
  dot (zip_with Qminus r r') col == dot r col - dot r' col.
Proof.
  unfold dot, np_sum. revert r' col.
  induction r as [|a r IH]; intros [|a' r'] col Hlen; try discriminate.
  - simpl. ring.
  - destruct col as [|h col]; cbn [zip_with foldr]; [ring|].
    rewrite IH by (simpl in Hlen; lia). ring.
Qed.

Lemma residual_row (H : matrix) (r : vector) (ks : list nat) :
  Forall2 Qeq
    (zip_with Qminus (map (fun k => dot r (column H k)) ks)
       (map (fun k => dot (map astype_int r) (column H k)) ks))
    (map (fun k => dot (zip_with Qminus r (map astype_int r)) (column H k))
       ks).
Proof.
  induction ks as [|k ks IH]; cbn [map zip_with]; constructor; [|exact IH].
  symmetry. apply dot_sub. rewrite length_map. reflexivity.
Qed.

(** X17: the residual marginals of the discretizer's program are the
    marginals of the fractional parts: [np.dot(x, H) - np.dot(x_int, H)]
    equals, entry by entry, [np.dot(x - x_int, H)]. *)
Theorem residuals_are_fractional_marginals (log : Q -> Q)
    (hh_table x : matrix) (gamma : Q) :
  pointwise Qeq
    (s_A_residuals (selection_program log hh_table x gamma))
    (matmul (mat_sub x (map (map astype_int) x)) hh_table).
Proof.
  unfold selection_program, pointwise, matmul, mat_sub. cbn [s_A_residuals].
  induction x as [|r x IH]; cbn [map zip_with]; constructor; [|exact IH].
  apply residual_row.
Qed.

Lemma dot_unit_bounds (fr col : vector) :
  Forall (fun f => (0 <= f <= 1)%Q) fr ->
  Forall (fun h => (0 <= h)%Q) col ->
  (0 <= dot fr col <= np_sum col)%Q.
Proof.
  unfold dot, np_sum. intros Hfr. revert col.
  induction Hfr as [|f fr Hf _ IH]; intros col Hcol.
  - cbn [zip_with foldr]. split; [lra|].
    induction Hcol as [|h col Hh _ IHc]; cbn [foldr]; lra.
  - destruct Hcol as [|h col Hh Hcol]; cbn [zip_with foldr]; [lra|].
    specialize (IH col Hcol). nra.
Qed.

Lemma fractional_row (r : vector) :
  Forall (fun v => (0 <= v < inject_Z (2 ^ 63))%Q) r ->
  Forall (fun f => (0 <= f <= 1)%Q) (zip_with Qminus r (map astype_int r)).
Proof.
  induction 1 as [|v r Hv _ IH]; cbn [map zip_with]; constructor; [|exact IH].
  assert (int64_range v) as Hrange.
  { split; [|apply Hv].
    assert (- inject_Z (2 ^ 63) < 0)%Q by reflexivity. lra. }
  destruct (astype_int_fraction v Hrange) as (_ & Hpos & _).
  specialize (Hpos (proj1 Hv)).
  unfold Qminus in *. lra.
Qed.

Lemma column_nonneg (H : matrix) (k : nat) :
  entries (fun h => (0 <= h)%Q) H ->
  Forall (fun h => (0 <= h)%Q) (column H k).
Proof.
  unfold entries, column. intros HH. rewrite map_fmap.
  apply Forall_fmap. eapply Forall_impl; [exact HH|].
  intros r Hr. simpl. unfold item.
  destruct (r !! k) as [h|] eqn:Hk; simpl; [|lra].
  rewrite Forall_lookup in Hr. exact (Hr k h Hk).
Qed.

(** X18: for weights that are not negative and below [2^63], and a
    household table that is not negative, every residual marginal lies
    between 0 and the total of its control's column: truncation leaves
    less than one household per sample to place. *)
Theorem residual_marginals_bounded (log : Q -> Q)
    (hh_table x : matrix) (gamma : Q) :
  entries (fun v => (0 <= v < inject_Z (2 ^ 63))%Q) x ->
  entries (fun h => (0 <= h)%Q) hh_table ->
  Forall
    (fun row =>
       Forall2 (fun a k => (0 <= a <= np_sum (column hh_table k))%Q)
         row (seq 0 (ncols hh_table)))
    (s_A_residuals (selection_program log hh_table x gamma)).
Proof.
  intros Hx HH.
  unfold selection_program, matmul, mat_sub. cbn [s_A_residuals].
  induction Hx as [|r x Hr _ IH]; cbn [map zip_with]; constructor;
    [|exact IH].
  pose proof (residual_row hh_table r (seq 0 (ncols hh_table))) as Hrow.
  pose proof (fractional_row r Hr) as Hfr.
  revert Hrow. generalize (seq 0 (ncols hh_table)). intros ks.
  induction ks as [|k ks IHk]; cbn [map zip_with]; intros Hrow;
    constructor.
  - inversion Hrow as [|? ? ? ? Heq _]; subst. rewrite Heq.
    apply dot_unit_bounds; [exact Hfr | apply column_nonneg, HH].
  - apply IHk. inversion Hrow; subst. assumption.
Qed.

(** Beyond the 64-bit range the cast leaves no fractional part: the
    weight [2^63] is cast to [-2^63], and its residual is [2^64]. *)
Example cast_out_of_range :
  astype_int (inject_Z (2 ^ 63)) = inject_Z (- 2 ^ 63) /\
  inject_Z (2 ^ 63) - astype_int (inject_Z (2 ^ 63)) == inject_Z (2 ^ 64).
Proof. split; reflexivity. Qed.

Lemma objective_logs_fractional_parts_witness :
  exists R,
    s_x_log (selection_program Demo.no_log Demo.hh_table Cases.x_frac 100)
      = map (map Demo.no_log) R /\
    pointwise
      (fun r v =>
         whole (v - r) /\
         ((0 <= v)%Q -> (0 <= r < 1)%Q) /\
         ((v <= 0)%Q -> (-1 < r <= 0)%Q) /\
         (r == 0 <-> whole v))
      R Cases.x_frac.
Proof.
  apply (objective_logs_fractional_parts Demo.no_log Demo.hh_table
           Cases.x_frac 100).
  repeat constructor.
Defined.

Lemma residual_marginals_bounded_witness :
  Forall
    (fun row =>
       Forall2 (fun a k => (0 <= a <= np_sum (column Demo.hh_table k))%Q)
         row (seq 0 (ncols Demo.hh_table)))
    (s_A_residuals
       (selection_program Demo.no_log Demo.hh_table Cases.x_frac 100)).
Proof.
  apply (residual_marginals_bounded Demo.no_log Demo.hh_table Cases.x_frac
           100).
  - repeat constructor; discriminate.
  - repeat constructor; discriminate.
Defined.

(** ** A zero-marginal tract beyond the kept tracts *)

Lemma rescale_length (w : matrix) (wa : vector) :
  length (rescale w wa) <= length wa.
Proof. unfold rescale. rewrite length_zip_with. lia. Qed.

(** X19: the recorded positions are read against the reduced arrays: when
    a zero-marginal tract sits at a position larger than the number of
    tracts kept, and the solver returns one row of [x] per tract of its
    problem, the call cannot return: it ends in the solver's error or in
    the [IndexError] of [np.insert]. *)
Theorem zero_tract_out_of_range (solve : solver)
    (hh_table A B w mu meta_mu : matrix) (i : nat) :
  (forall c p v xv,
     p_A p = (remove_tracts (zero_marginals A) A w mu).1.1 ->
     solve c p = Solved v -> x_value v = Some xv ->
     length xv = length (p_A p)) ->
  i ∈ zero_marginals A ->
  length (remove_tracts (zero_marginals A) A w mu).1.1 < i ->
  balance_multi_cvx solve hh_table A B w mu meta_mu
    = Some (Raised SolverError) \/
  balance_multi_cvx solve hh_table A B w mu meta_mu
    = Some (Raised IndexError).
Proof.
  intros Hshape Hi Hlt.
  destruct (balance_multi_cvx_total solve hh_table A B w mu meta_mu)
    as [r Hr].
  rewrite Hr. revert Hr.
  unfold balance_multi_cvx, balance_multi_cvx_fuel.
  destruct (remove_tracts (zero_marginals A) A w mu) as [[A' w'] mu'].
  cbn [fst] in Hlt, Hshape.
  destruct (retry_loop _ _ _ _ _ _ _) as [[ex|e]|] eqn:Hloop; [| |discriminate].
  - apply retry_loop_exit in Hloop as (_ & _ & _ & _ & c & m & Hv).
    set (weights_out := match x_value (exit_values ex) with
                        | Some xv => if np_any xv then xv
                                     else rescale w' (tract_shares A')
                        | None => rescale w' (tract_shares A')
                        end).
    assert (length weights_out <= length A') as Hlen.
    { pose proof (rescale_length w' (tract_shares A')) as Hp.
      unfold tract_shares, np_sum_rows in Hp. rewrite !length_map in Hp.
      subst weights_out.
      destruct (x_value (exit_values ex)) as [xv|] eqn:Hx; [|exact Hp].
      destruct (np_any xv); [|exact Hp].
      rewrite (fun H => Hshape _ _ _ _ H Hv Hx) by reflexivity.
      cbn [p_A]. lia. }
    unfold insert_zeros.
    destruct (zero_marginals A) as [|j zm] eqn:Hzm;
      [apply elem_of_nil in Hi; contradiction|].
    unfold np_insert_rows.
    assert (forallb (fun k => k <=? length weights_out) (j :: zm) = false)
      as ->.
    { apply not_true_is_false. intros Hall.
      rewrite forallb_forall in Hall.
      specialize (Hall i (proj1 (list_elem_of_In _ _) Hi)).
      apply Nat.leb_le in Hall. lia. }
    cbn [negb]. intros [= <-]. auto.
  - apply retry_loop_raises in Hloop as ->. intros [= <-]. auto.
Qed.

Lemma zero_tract_out_of_range_witness :
  balance_multi_cvx Demo.steady Demo.hh_table Cases.A_last Demo.B3 Demo.w3
    Demo.mu3 Demo.meta_mu = Some (Raised SolverError) \/
  balance_multi_cvx Demo.steady Demo.hh_table Cases.A_last Demo.B3 Demo.w3
    Demo.mu3 Demo.meta_mu = Some (Raised IndexError).
Proof.
  apply (zero_tract_out_of_range Demo.steady Demo.hh_table Cases.A_last
           Demo.B3 Demo.w3 Demo.mu3 Demo.meta_mu 2).
  - intros c p v xv -> [= <-] [= <-]. reflexivity.
  - vm_compute. repeat constructor.
  - vm_compute. lia.
Defined.

(** ** The mass of the rescaled prior *)

Lemma np_sum_cons (v : Q) (r : vector) : np_sum (v :: r) = (v + np_sum r)%Q.
Proof. reflexivity. Qed.

Lemma np_sum_scale (r : vector) (a : Q) :
  np_sum (map (fun v => (v * a)%Q) r) == np_sum r * a.
Proof.
  unfold np_sum. induction r as [|v r IH]; cbn [map foldr]; [ring|].
  rewrite IH. ring.
Qed.

Lemma tract_shares_total (A : matrix) :
  ~ np_sum_all A == 0 -> np_sum (tract_shares A) == 1.
Proof.
  intros HT. unfold tract_shares.
  assert (forall (l : vector) (T : Q),
            np_sum (map (fun s => (s / T)%Q) l) == np_sum l / T) as Hdiv.
  { intros l T. unfold Qdiv. apply (np_sum_scale l (/ T)). }
  rewrite Hdiv. fold (np_sum_all A). field. exact HT.
Qed.

Lemma rescale_total (w : matrix) (wa : vector) (W : Q) :
  Forall (fun wr => np_sum wr == W) w ->
  length w = length wa ->
  np_sum_all (rescale w wa) == W * np_sum wa.
Proof.
  unfold np_sum_all, np_sum_rows, rescale. intros Hw. revert wa.
  induction Hw as [|wr w Hwr _ IH]; intros [|a wa] Hlen; try discriminate.
  - unfold np_sum. simpl. ring.
  - cbn [zip_with map]. rewrite !np_sum_cons.
    rewrite IH by (simpl in Hlen; lia).
    rewrite np_sum_scale, Hwr. ring.
Qed.

(** X20: the rescaling splits the prior by marginal mass: the shares of
    the kept tracts add up to 1, the prior weights of a tract are
    multiplied by that tract's share, so their total is the share of the
    tract's former total, and when every tract starts from a prior of the
    same total [W], the rescaled prior as a whole has total [W]. *)
Theorem rescaled_prior_mass (A w mu : matrix) (W : Q) :
  let A' := (remove_tracts (zero_marginals A) A w mu).1.1 in
  let w' := (remove_tracts (zero_marginals A) A w mu).1.2 in
  ~ np_sum_all A' == 0 ->
  np_sum (tract_shares A') == 1 /\
  (forall i wr ar,
     w' !! i = Some wr -> A' !! i = Some ar ->
     exists r,
       rescaled_prior A w mu !! i = Some r /\
       np_sum r == np_sum wr * (np_sum ar / np_sum_all A')) /\
  (length w' = length A' ->
   Forall (fun wr => np_sum wr == W) w' ->
   np_sum_all (rescaled_prior A w mu) == W).
Proof.
  intros A' w' HT. unfold rescaled_prior. subst A' w'.
  destruct (remove_tracts (zero_marginals A) A w mu) as [[A' w'] mu'].
  cbn [fst snd] in *.
  split; [apply tract_shares_total, HT|]. split.
  - intros i wr ar Hw HA.
    exists (map (fun v => (v * (np_sum ar / np_sum_all A'))%Q) wr). split.
    + unfold rescale, tract_shares, np_sum_rows.
      rewrite lookup_zip_with, Hw. simpl.
      rewrite !map_fmap, !list_lookup_fmap, HA. reflexivity.
    + apply np_sum_scale.
  - intros Hlen HW.
    rewrite (rescale_total w' (tract_shares A') W HW).
    + rewrite tract_shares_total by exact HT. ring.
    + unfold tract_shares, np_sum_rows. rewrite !length_map. exact Hlen.
Qed.

Lemma rescaled_prior_mass_witness :
  np_sum (tract_shares [[1; 1]; [2; 1]]%Q) == 1.
Proof.
  refine (proj1 (rescaled_prior_mass Cases.A_mid Demo.w3 Demo.mu3 2 _)).
  vm_compute. discriminate.
Defined.

(** ** The data sources *)

Section TableFacts.

Variable value : Type.
Variable str : value -> string.
Variables STATE_name PUMA_name : string.

Local Abbreviation row := (DataSource.row value).
Local Abbreviation frame := (DataSource.frame value).

Lemma select_map (df : frame) (g : row -> bool) :
  DataSource.rows value (DataSource.select value df (map g (DataSource.rows value df)))
  = filter (fun r => g r = true) (DataSource.rows value df).
Proof.
  unfold DataSource.select. cbn [DataSource.rows].
  induction (DataSource.rows value df) as [|r rs IH]; [reflexivity|].
  cbn [map zip_with]. rewrite !filter_cons. cbn [snd].
  destruct (g r).
  - rewrite !decide_True by reflexivity. rewrite fmap_cons. cbn [fst].
    f_equal. exact IH.
  - rewrite !decide_False by discriminate. exact IH.
Qed.

Lemma narrow_map (df : frame) (g : row -> bool) (col : string)
    (key : option value) (q : list bool) :
  DataSource.narrow value str df (map g (DataSource.rows value df)) col key
    = DataSource.Found q ->
  (forall k, key = Some k -> col ∈ DataSource.columns value df) /\
  q = map (fun r =>
             g r && match key with
                    | Some k =>
                        bool_decide (str (DataSource.cell value r col) = str k)
                    | None => true
                    end)
        (DataSource.rows value df).
Proof.
  unfold DataSource.narrow, DataSource.get_column.
  destruct key as [k|].
  - destruct (bool_decide (col ∈ _)) eqn:E; [|discriminate].
    apply bool_decide_eq_true in E. intros [= <-].
    split; [intros k' _; exact E|].
    unfold DataSource.and_equal.
    induction (DataSource.rows value df) as [|r rs IH]; [reflexivity|].
    cbn [map zip_with]. rewrite IH. reflexivity.
  - intros [= <-]. split; [discriminate|].
    apply map_ext. intros r. rewrite andb_true_r. reflexivity.
Qed.

(** What [clean] keeps when it is given a condition. *)
Lemma clean_selects_wanted_rows_aux
    (preprocessor : frame -> list string -> gmap string string -> frame)
    (data : frame) (names : gmap string string) (field_names : list string)
    (state puma : option value) (out : frame) :
  is_Some state \/ is_Some puma ->
  DataSource.clean value str STATE_name PUMA_name preprocessor data names
    field_names state puma = DataSource.Found out ->
  DataSource.columns value out
    = DataSource.columns value (preprocessor data field_names names) /\
  DataSource.rows value out
    = filter (DataSource.wanted value str STATE_name PUMA_name state puma)
        (DataSource.rows value (preprocessor data field_names names)).
Proof.
  intros Hgiven. unfold DataSource.clean.
  set (df := preprocessor data field_names names).
  assert (match
            DataSource.narrow value str df (DataSource.index_not_null value df)
              STATE_name state
          with
          | DataSource.Found q =>
              match DataSource.narrow value str df q PUMA_name puma with
              | DataSource.Found q' =>
                  DataSource.Found (DataSource.select value df q')
              | DataSource.KeyError => DataSource.KeyError
              end
          | DataSource.KeyError => DataSource.KeyError
          end = DataSource.Found out ->
          DataSource.columns value out = DataSource.columns value df /\
          DataSource.rows value out
          = filter (DataSource.wanted value str STATE_name PUMA_name state puma)
              (DataSource.rows value df)) as Hmain.
  { unfold DataSource.index_not_null.
    destruct (DataSource.narrow _ _ _ _ STATE_name state) as [q|] eqn:Hs;
      [|discriminate].
    apply narrow_map in Hs as [_ ->].
    destruct (DataSource.narrow _ _ _ _ PUMA_name puma) as [q'|] eqn:Hp;
      [|discriminate].
    apply narrow_map in Hp as [_ ->].
    intros [= <-]. split; [reflexivity|].
    rewrite select_map. apply list_filter_iff. intros r.
    unfold DataSource.wanted.
    rewrite !andb_true_iff, bool_decide_eq_true.
    rewrite <- not_eq_None_Some.
    destruct state, puma; rewrite ?bool_decide_eq_true; tauto. }
  destruct state as [s|], puma as [p|]; try exact Hmain.
  destruct Hgiven as [[? [=]]|[? [=]]].
Qed.

(** X21: when a state or a PUMA is given, [clean] returns the columns of
    the preprocessed table and exactly those of its rows, in their order,
    whose index label is not null and whose state and PUMA cells, as text,
    equal the text of the arguments given. *)
Theorem clean_selects_wanted_rows
    (preprocessor : frame -> list string -> gmap string string -> frame)
    (data : frame) (names : gmap string string) (field_names : list string)
    (state puma : option value) (out : frame) :
  is_Some state \/ is_Some puma ->
  DataSource.clean value str STATE_name PUMA_name preprocessor data names
    field_names state puma = DataSource.Found out ->
  DataSource.columns value out
    = DataSource.columns value (preprocessor data field_names names) /\
  DataSource.rows value out
    = filter (DataSource.wanted value str STATE_name PUMA_name state puma)
        (DataSource.rows value (preprocessor data field_names names)).
Proof. apply clean_selects_wanted_rows_aux. Qed.

Lemma narrow_key_error (df : frame) (q : list bool) (col : string)
    (key : option value) :
  DataSource.narrow value str df q col key = DataSource.KeyError <->
  is_Some key /\ col ∉ DataSource.columns value df.
Proof.
  unfold DataSource.narrow, DataSource.get_column.
  destruct key as [k|].
  - destruct (bool_decide (col ∈ _)) eqn:E.
    + apply bool_decide_eq_true in E.
      split; [discriminate | intros [_ H]; contradiction].
    + apply bool_decide_eq_false in E. split; [eauto | reflexivity].
  - split; [discriminate | intros [[? [=]] _]].
Qed.

(** X22: rows with a null index label pass [clean] only when neither a
    state nor a PUMA is given: any condition drops them, whatever their
    cells hold. *)
Theorem clean_null_labels
    (preprocessor : frame -> list string -> gmap string string -> frame)
    (data : frame) (names : gmap string string) (field_names : list string)
    (state puma : option value) (out : frame) (r : row) :
  DataSource.clean value str STATE_name PUMA_name preprocessor data names
    field_names state puma = DataSource.Found out ->
  r ∈ DataSource.rows value (preprocessor data field_names names) ->
  DataSource.label value r = None ->
  r ∈ DataSource.rows value out <-> state = None /\ puma = None.
Proof.
  intros Hclean Hr Hnull.
  destruct (decide (state = None /\ puma = None)) as [[-> ->]|Hsome].
  - cbn in Hclean. injection Hclean as <-. tauto.
  - assert (is_Some state \/ is_Some puma) as Hgiven.
    { destruct state, puma; eauto. tauto. }
    destruct (clean_selects_wanted_rows_aux preprocessor data names
                field_names state puma out Hgiven Hclean) as [_ ->].
    rewrite list_elem_of_filter. unfold DataSource.wanted. rewrite Hnull.
    split; [intros [[[? [=]] _] _] | tauto].
Qed.

(** X23: [clean] raises [KeyError] exactly when a state is given and the
    preprocessed table has no state column, or a PUMA is given and it has
    no PUMA column; a missing column goes unnoticed while its condition is
    not asked for, and is noticed even in a table without rows. *)
Theorem clean_key_error
    (preprocessor : frame -> list string -> gmap string string -> frame)
    (data : frame) (names : gmap string string) (field_names : list string)
    (state puma : option value) :
  DataSource.clean value str STATE_name PUMA_name preprocessor data names
    field_names state puma = DataSource.KeyError <->
  (is_Some state /\
   STATE_name ∉ DataSource.columns value (preprocessor data field_names names))
  \/
  (is_Some puma /\
   PUMA_name ∉ DataSource.columns value (preprocessor data field_names names)).
Proof.
  unfold DataSource.clean.
  set (df := preprocessor data field_names names).
  assert (match
            DataSource.narrow value str df (DataSource.index_not_null value df)
              STATE_name state
          with
          | DataSource.Found q =>
              match DataSource.narrow value str df q PUMA_name puma with
              | DataSource.Found q' =>
                  DataSource.Found (DataSource.select value df q')
              | DataSource.KeyError => DataSource.KeyError
              end
          | DataSource.KeyError => DataSource.KeyError
          end = DataSource.KeyError <->
          (is_Some state /\ STATE_name ∉ DataSource.columns value df) \/
          (is_Some puma /\ PUMA_name ∉ DataSource.columns value df)) as Hmain.
  { destruct (DataSource.narrow _ _ _ _ STATE_name state) as [q|] eqn:Hs.
    - assert (~ (is_Some state /\ STATE_name ∉ DataSource.columns value df))
        as Hno.
      { intros H.
        apply (narrow_key_error df (DataSource.index_not_null value df)) in H.
        rewrite H in Hs. discriminate. }
      destruct (DataSource.narrow _ _ _ _ PUMA_name puma) as [q'|] eqn:Hp.
      + split; [discriminate|]. intros [H|H]; [contradiction|].
        apply (narrow_key_error df q) in H. congruence.
      + apply narrow_key_error in Hp. tauto.
    - apply narrow_key_error in Hs. tauto. }
  destruct state as [s|], puma as [p|]; try exact Hmain.
  split; [discriminate|]. intros [[[? [=]] _]|[[? [=]] _]].
Qed.

End TableFacts.

Lemma name_map_snoc (l : list DataSource.field) (f : DataSource.field) :
  DataSource.name_map (l ++ [f])
  = <[DataSource.name f := DataSource.pums_name f]> (DataSource.name_map l).
Proof. unfold DataSource.name_map. rewrite foldl_snoc. reflexivity. Qed.

(** X24: the name map of [PumsData] sends a name to the PUMS name of the
    last field that carries it, and holds nothing for a name that no
    field carries. *)
Theorem name_map_lookup (PUMS_INPUTS : list DataSource.field) (key : string) :
  DataSource.name_map PUMS_INPUTS !! key
  = DataSource.pums_name
      <$> last (filter (fun f => DataSource.name f = key) PUMS_INPUTS).
Proof.
  induction PUMS_INPUTS as [|f l IH] using rev_ind; [reflexivity|].
  rewrite name_map_snoc, filter_app, filter_cons, filter_nil.
  destruct (decide (DataSource.name f = key)) as [<-|Hne].
  - rewrite lookup_insert_eq, last_snoc. reflexivity.
  - rewrite lookup_insert_ne by exact Hne. rewrite app_nil_r. exact IH.
Qed.

Lemma clean_selects_wanted_rows_witness :
  DataSource.columns string
    {| DataSource.columns := ["state"; "puma"];
       DataSource.rows := [TableCases.h1] |}
    = DataSource.columns string
        (TableCases.keep TableCases.table [] ∅) /\
  DataSource.rows string
    {| DataSource.columns := ["state"; "puma"];
       DataSource.rows := [TableCases.h1] |}
    = filter
        (DataSource.wanted string TableCases.str "state" "puma"
           (Some "06") None)
        (DataSource.rows string (TableCases.keep TableCases.table [] ∅)).
Proof.
  apply (clean_selects_wanted_rows string TableCases.str "state" "puma"
           TableCases.keep TableCases.table ∅ [] (Some "06") None).
  - left. eauto.
  - reflexivity.
Defined.

Lemma clean_null_labels_witness :
  TableCases.h2
    ∈ DataSource.rows string
        {| DataSource.columns := ["state"; "puma"];
           DataSource.rows := [TableCases.h1] |}
  <-> Some "06" = None /\ @None string = None.
Proof.
  apply (clean_null_labels string TableCases.str "state" "puma"
           TableCases.keep TableCases.table ∅ [] (Some "06") None).
  - reflexivity.
  - apply list_elem_of_further, list_elem_of_here.
  - reflexivity.
Defined.

Example name_map_last_wins :
  DataSource.name_map
    [{| DataSource.name := "age"; DataSource.pums_name := "AGEP" |};
     {| DataSource.name := "state"; DataSource.pums_name := "ST" |};
     {| DataSource.name := "age"; DataSource.pums_name := "AGE" |}]
    !! "age" = Some "AGE".
Proof. reflexivity. Qed.
